(** * Mbed music player: shared playback state, control surface,
      start-up, Bluetooth, display and level meter threads and playback
      loop of [main.cpp]

    The development embeds the C++ source shallowly.  C++ [int] values are
    integers of [Z] with the 32-bit two's complement wrap-around written out,
    [double] values are IEEE binary64 numbers ([spec_float] at precision 53),
    [std::string] is [string], [vector<string>] is [list string].  Every
    function of the source is modelled as if it ran without interleaving:
    the threads and interrupt handlers of the program are not scheduled
    against each other here. *)

From Stdlib Require Import ZArith List Bool Ascii String Lia.
From Stdlib Require Import SpecFloat.
Import ListNotations.

Local Open Scope Z_scope.

(** ** Machine integers *)

Module MachineInt.

Definition INT_MIN : Z := - 2 ^ 31.
Definition INT_MAX : Z := 2 ^ 31 - 1.
Definition SIZE_MOD : Z := 2 ^ 32.

(** The value an [int] holds after an arithmetic result [z]. *)
Definition wrap_int (z : Z) : Z := (z + 2 ^ 31) mod 2 ^ 32 - 2 ^ 31.

(** The value a [size_t] (32 bits on the target) holds after [z]. *)
Definition wrap_size (z : Z) : Z := z mod SIZE_MOD.

Definition is_int (z : Z) : Prop := INT_MIN <= z <= INT_MAX.

End MachineInt.
Import MachineInt.

(** ** Shared playback state (the globals of main.cpp, lines 50-53) *)

Record Shared : Type := mkShared {
  playing : bool;
  currentSong : Z;
  songCount : Z;
  songList : list string
}.

Definition set_currentSong (s : Shared) (v : Z) : Shared :=
  mkShared (playing s) v (songCount s) (songList s).

Definition set_playing (s : Shared) (b : bool) : Shared :=
  mkShared b (currentSong s) (songCount s) (songList s).

(** The track index lies in the library. *)
Definition in_range (s : Shared) : Prop :=
  0 <= currentSong s < songCount s.

Definition in_rangeb (s : Shared) : bool :=
  (0 <=? currentSong s) && (currentSong s <? songCount s).

(** ** Control surface *)

(** [nextSong], main.cpp lines 63-74. *)
Definition nextSong (s : Shared) : Shared :=
  if currentSong s =? wrap_int (songCount s - 1)
  then set_currentSong s 0
  else set_currentSong s (wrap_int (currentSong s + 1)).

(** [prevSong], main.cpp lines 81-92. *)
Definition prevSong (s : Shared) : Shared :=
  if currentSong s =? 0
  then set_currentSong s (wrap_int (songCount s - 1))
  else set_currentSong s (wrap_int (currentSong s - 1)).

(** [playSong], main.cpp lines 100-104. *)
Definition playSong (s : Shared) : Shared :=
  set_playing s (negb (playing s)).

(** Sequences of the two navigation operations. *)
Inductive nav : Type := Advance | Retreat.

Definition apply_nav (n : nav) (s : Shared) : Shared :=
  match n with
  | Advance => nextSong s
  | Retreat => prevSong s
  end.

(** The states reached after each call of the sequence, in order. *)
Fixpoint nav_states (ops : list nav) (s : Shared) : list Shared :=
  match ops with
  | [] => []
  | n :: ops' => apply_nav n s :: nav_states ops' (apply_nav n s)
  end.

(** ** Doubles (IEEE binary64) *)

Module Double.

Definition prec : Z := 53.
Definition emax : Z := 1024.

Definition double : Type := spec_float.

Definition add : double -> double -> double := SFadd prec emax.
Definition mul : double -> double -> double := SFmul prec emax.

(** The double an integer literal or [int] value converts to. *)
Definition of_int (z : Z) : double := binary_normalize prec emax z 0 false.

(** The dyadic number [m * 2 ^ e] as a double. *)
Definition of_dyadic (m e : Z) : double := binary_normalize prec emax m e false.

(** Truncation toward zero; infinities and NaN have no integer part. *)
Definition trunc (d : double) : option Z :=
  match d with
  | S754_zero _ => Some 0
  | S754_finite sg m e =>
      Some (cond_Zopp sg
              (if 0 <=? e then Z.shiftl (Z.pos m) e
               else Z.shiftr (Z.pos m) (- e)))
  | S754_infinity _ | S754_nan => None
  end.

(** The conversion [int(d)]: defined only when the truncated value is
    representable in an [int]. *)
Definition to_int (d : double) : option Z :=
  match trunc d with
  | Some z => if (INT_MIN <=? z) && (z <=? INT_MAX) then Some z else None
  | None => None
  end.

End Double.

(** ** Outcomes of running a piece of the program *)

Inductive outcome (A : Type) : Type :=
| Ret (a : A)      (* ran to its end *)
| Undefined        (* left the behaviour the language defines *)
| Blocked.         (* waits for a byte that never arrives *)

Arguments Ret {A} a.
Arguments Undefined {A}.
Arguments Blocked {A}.

(** The reading [readXYZGravity] stores through its three pointers. *)
Definition gravity : Type := (Double.double * Double.double * Double.double)%type.

(** The integer [int(100000 * (x + y + z))] of line 118. *)
Definition entropy (g : gravity) : option Z :=
  let '(x, y, z) := g in
  Double.to_int
    (Double.mul (Double.of_int 100000) (Double.add (Double.add x y) z)).

(** [shuffleSong], main.cpp lines 113-119; [g] is what the accelerometer
    returns.  [%] is the remainder of the division that truncates toward
    zero ([Z.rem]); it is undefined for a zero divisor and for
    [INT_MIN % -1]. *)
Definition shuffleSong (g : gravity) (s : Shared) : outcome Shared :=
  match entropy g with
  | None => Undefined
  | Some n =>
      if (songCount s =? 0) || ((n =? INT_MIN) && (songCount s =? -1))
      then Undefined
      else Ret (set_currentSong s (Z.rem n (songCount s)))
  end.

(** ** The world around the shared state *)

(** What the program does to its peripherals, in the order it does it. *)
Inductive event : Type :=
| BtPutc (c : ascii)                    (* blueTooth.putc *)
| LcdLocate (col row : Z)               (* uLCD.locate *)
| LcdPrintf (text : string)             (* uLCD.printf *)
| Wait (ms : Z)                         (* Thread::wait *)
| Fopen (path : string) (opened : bool) (* fopen(path, "r") *)
| Play (file : option string)           (* waver.play; None is NULL *)
| Fclose (file : option string).        (* fclose; None is NULL *)

Record World : Type := mkWorld {
  shared : Shared;            (* playing, currentSong, songCount, songList *)
  accel : gravity;            (* what acc.readXYZGravity returns *)
  rx : list ascii;            (* bytes queued on the Bluetooth link *)
  writeable : bool;           (* what blueTooth.writeable() returns *)
  card : list string;         (* the paths fopen can open *)
  trace : list event          (* peripheral calls so far, oldest first *)
}.

Definition set_shared (w : World) (s : Shared) : World :=
  mkWorld s (accel w) (rx w) (writeable w) (card w) (trace w).

Definition set_rx (w : World) (q : list ascii) : World :=
  mkWorld (shared w) (accel w) q (writeable w) (card w) (trace w).

Definition add_events (w : World) (es : list event) : World :=
  mkWorld (shared w) (accel w) (rx w) (writeable w) (card w) (trace w ++ es).

(** The characters sent over Bluetooth in a trace. *)
Fixpoint bt_sent (t : list event) : list ascii :=
  match t with
  | [] => []
  | BtPutc c :: t' => c :: bt_sent t'
  | _ :: t' => bt_sent t'
  end.

(** The display calls in a trace. *)
Definition is_lcd (e : event) : bool :=
  match e with
  | LcdLocate _ _ | LcdPrintf _ => true
  | _ => false
  end.

Definition lcd_calls (t : list event) : list event := filter is_lcd t.

(** ** A state and error monad for the stateful code *)

Definition M (A : Type) : Type := World -> outcome (A * World).

Definition ret {A : Type} (a : A) : M A := fun w => Ret (a, w).

Definition bind {A B : Type} (m : M A) (k : A -> M B) : M B :=
  fun w =>
    match m w with
    | Ret (a, w') => k a w'
    | Undefined => Undefined
    | Blocked => Blocked
    end.

Declare Scope prog_scope.
Delimit Scope prog_scope with prog.

Notation "x <- m ;; k" := (bind m (fun x => k))
  (at level 61, m at next level, right associativity) : prog_scope.
Notation "m ;; k" := (bind m (fun _ => k))
  (at level 61, right associativity) : prog_scope.

Local Open Scope prog_scope.

Definition undefined {A : Type} : M A := fun _ => Undefined.

Definition get_shared : M Shared := fun w => Ret (shared w, w).

Definition modify_shared (f : Shared -> Shared) : M unit :=
  fun w => Ret (tt, set_shared w (f (shared w))).

Definition emit (e : event) : M unit := fun w => Ret (tt, add_events w [e]).

(** The C++ [for (int i = start; i < start + n; i++) body(i)]. *)
Fixpoint for_upto (n : nat) (i : Z) (body : Z -> M unit) : M unit :=
  match n with
  | O => ret tt
  | S n' => body i ;; for_upto n' (i + 1) body
  end.

(** *** Containers *)

Definition size (s : string) : Z := Z.of_nat (String.length s).

(** [v[i]] on a [vector<string>]: defined for [0 <= i < v.size()]. *)
Definition vector_at (v : list string) (i : Z) : M string :=
  if i <? 0 then undefined
  else match nth_error v (Z.to_nat i) with
       | Some x => ret x
       | None => undefined
       end.

(** [s[i]] on a [std::string]: the character for [0 <= i < s.size()], the
    terminator for [i = s.size()], undefined beyond. *)
Definition string_at (s : string) (i : Z) : M ascii :=
  if i <? 0 then undefined
  else match String.get (Z.to_nat i) s with
       | Some c => ret c
       | None => if i =? size s then ret zero else undefined
       end.

(** *** Peripherals *)

Definition bt_writeable : M bool := fun w => Ret (writeable w, w).

Definition bt_readable : M bool :=
  fun w => Ret (match rx w with [] => false | _ :: _ => true end, w).

(** [blueTooth.getc()] takes the oldest queued byte and waits when there is
    none. *)
Definition bt_getc : M ascii :=
  fun w =>
    match rx w with
    | [] => Blocked
    | c :: q => Ret (c, set_rx w q)
    end.

Definition bt_putc (c : ascii) : M unit := emit (BtPutc c).

Definition fopen (path : string) : M (option string) :=
  fun w =>
    let ok := existsb (String.eqb path) (card w) in
    Ret (if ok then Some path else None, add_events w [Fopen path ok]).

(** [shuffleSong] reads the accelerometer of the world. *)
Definition do_shuffle : M unit :=
  fun w =>
    match shuffleSong (accel w) (shared w) with
    | Ret s' => Ret (tt, set_shared w s')
    | Undefined => Undefined
    | Blocked => Blocked
    end.

(** ** The Bluetooth thread, main.cpp lines 209-278 *)

(** The initial value of [previousSongBLE], line 212. *)
Definition previousSongBLE_init : Z := 0.

Definition newline : ascii := ascii_of_nat 10.

(** The bound [songList[currentSong].size() - 4] of line 228, computed in
    [size_t]. *)
Definition copy_bound (name : string) : Z := wrap_size (size name - 4).

(** The copy loop of lines 228-231.  [i] is compared and used as a [size_t],
    so the loop runs [copy_bound name] times on the indices from 0. *)
Definition copy_name (name : string) : M unit :=
  for_upto (Z.to_nat (copy_bound name)) 0
    (fun i => c <- string_at name i ;; bt_putc c).

(** Lines 217-236: the status push; the result is the new value of
    [previousSongBLE]. *)
Definition status_push (previousSongBLE : Z) : M Z :=
  wr <- bt_writeable ;;
  if wr : bool then
    s <- get_shared ;;
    if negb (previousSongBLE =? currentSong s) then
      for_upto 14 0
        (fun i => c <- string_at "Current Song: " i ;; bt_putc c) ;;
      name <- vector_at (songList s) (currentSong s) ;;
      copy_name name ;;
      bt_putc newline ;;
      ret (currentSong s)
    else ret previousSongBLE
  else ret previousSongBLE.

(** The [switch (bnum)] of lines 251-271. *)
Definition dispatch (bnum : ascii) : M unit :=
  if (bnum =? "1")%char then modify_shared playSong
  else if (bnum =? "2")%char then modify_shared nextSong
  else if (bnum =? "3")%char then modify_shared prevSong
  else if (bnum =? "4")%char then do_shuffle
  else ret tt.

(** Lines 238-275: the command reader. *)
Definition read_commands : M unit :=
  rd <- bt_readable ;;
  if rd : bool then
    c0 <- bt_getc ;;
    if (c0 =? "!")%char then
      c1 <- bt_getc ;;
      if (c1 =? "B")%char then
        bnum <- bt_getc ;;
        bhit <- bt_getc ;;
        if (bhit =? "0")%char then dispatch bnum else ret tt
      else ret tt
    else ret tt
  else ret tt.

(** One turn of the [while (true)] of lines 214-277. *)
Definition BluetoothThread_body (previousSongBLE : Z) : M Z :=
  p <- status_push previousSongBLE ;;
  read_commands ;;
  emit (Wait 50) ;;
  ret p.

(** [n] turns of the loop, with nothing else touching the world between
    them. *)
Fixpoint BluetoothThread_turns (n : nat) (previousSongBLE : Z) : M Z :=
  match n with
  | O => ret previousSongBLE
  | S n' =>
      p <- BluetoothThread_body previousSongBLE ;;
      BluetoothThread_turns n' p
  end.

(** ** The playback loop, main.cpp lines 394-414 *)

(** One turn of the loop.  [waver.play] and [fclose] belong to libraries
    outside this program: the call and its argument are recorded, and the
    call is taken to return. *)
Definition main_loop_body : M unit :=
  s <- get_shared ;;
  name <- vector_at (songList s) (currentSong s) ;;
  wave_file <- fopen ("/sd/myMusic/" ++ name) ;;
  match wave_file with
  | None => emit (LcdLocate 0 12) ;; emit (LcdPrintf "file open error!")
  | Some _ => ret tt
  end ;;
  emit (Wait 1000) ;;
  emit (Play wave_file) ;;
  emit (Fclose wave_file) ;;
  modify_shared (fun s => set_playing s false).


(** ** The status message as the specification words it *)

(** The track identifier with its last 4 characters removed. *)
Definition strip_suffix4 (name : string) : string :=
  substring 0 (String.length name - 4) name.

(** ["Current Song: "], the stripped identifier, one newline. *)
Definition status_message (name : string) : list ascii :=
  list_ascii_of_string "Current Song: " ++
  list_ascii_of_string (strip_suffix4 name) ++ [newline].

(** [name] is the identifier [songList[currentSong]] designates. *)
Definition current_name (s : Shared) (name : string) : Prop :=
  0 <= currentSong s /\
  nth_error (songList s) (Z.to_nat (currentSong s)) = Some name.

(** The 4-byte inbound frame. *)
Definition frame (code edge : ascii) : list ascii :=
  ["!"; "B"; code; edge]%char.

(** ** Start-up, main.cpp lines 50-53 and 373-382 *)

(** The globals as they are initialised. *)
Definition initial_shared : Shared := mkShared false 0 0 [].

(** Lines 379-380: one directory entry is appended and counted. *)
Definition add_entry (s : Shared) (name : string) : Shared :=
  mkShared (playing s) (currentSong s)
    (wrap_int (songCount s + 1)) (songList s ++ [name]).

(** Lines 375-382.  [dir] is [None] when [opendir] returns NULL, and
    otherwise the names [readdir] yields, in order. *)
Definition enumerate (dir : option (list string)) (s : Shared) : Shared :=
  match dir with
  | None => s
  | Some entries => fold_left add_entry entries s
  end.

(** ** The button handlers, main.cpp lines 321-348 *)

Definition nextInt (s : Shared) : Shared := nextSong s.
Definition prevInt (s : Shared) : Shared := prevSong s.
Definition playInt (s : Shared) : Shared := playSong s.
Definition shuffleInt (g : gravity) (s : Shared) : outcome Shared :=
  shuffleSong g s.

(** A button release; the shuffle button carries the reading the
    accelerometer gives at that moment. *)
Inductive button : Type :=
| NextButton
| PrevButton
| PlayButton
| ShuffleButton (g : gravity).

Definition press (b : button) (s : Shared) : outcome Shared :=
  match b with
  | NextButton => Ret (nextInt s)
  | PrevButton => Ret (prevInt s)
  | PlayButton => Ret (playInt s)
  | ShuffleButton g => shuffleInt g s
  end.

(** The handlers run one after the other. *)
Fixpoint press_all (bs : list button) (s : Shared) : outcome Shared :=
  match bs with
  | [] => Ret s
  | b :: bs' =>
      match press b s with
      | Ret s' => press_all bs' s'
      | Undefined => Undefined
      | Blocked => Blocked
      end
  end.

(** The shuffle reading of a button, if it is one, gives a sample that is
    not negative. *)
Definition steady (b : button) : Prop :=
  match b with
  | ShuffleButton g => exists n, entropy g = Some n /\ 0 <= n
  | _ => True
  end.

(** ** The display thread, main.cpp lines 130-200 *)

(** The two colour names the thread uses. *)
Inductive colour : Type := BLACK | WHITE.

(** The calls the thread makes, with the arguments the source passes.  A
    [printf] whose format has a [%s] is recorded with the string handed to
    it. *)
Inductive lcd_call : Type :=
| Lcd_cls
| Lcd_baudrate (rate : Z)
| Lcd_background_color (c : colour)
| Lcd_color (c : colour)
| Lcd_text_width (n : Z)
| Lcd_text_height (n : Z)
| Lcd_locate (col row : Z)
| Lcd_printf (format : string)
| Lcd_printf_s (format : string) (arg : string)
| Lcd_wait (ms : Z).

(** [name.substr(0, name.find(".wav"))]: the part before the first
    ".wav", or the whole name when [find] returns [npos]. *)
Definition display_name (name : string) : string :=
  match index 0 ".wav" name with
  | Some n => substring 0 n name
  | None => name
  end.

(** [v[i]] without the monad: [None] is an index outside the vector. *)
Definition lookup (v : list string) (i : Z) : option string :=
  if i <? 0 then None else nth_error v (Z.to_nat i).

Definition carriage_return : ascii := ascii_of_nat 13.

(** The format ["%s\n\r"] of line 148. *)
Definition row_format : string :=
  String "%" (String "s" (String newline (String carriage_return ""))).

(** The loop of lines 145-149, [n] iterations from index [i]. *)
Fixpoint list_rows (n : nat) (i : Z) (v : list string)
  : outcome (list lcd_call) :=
  match n with
  | O => Ret []
  | S n' =>
      match lookup v i with
      | None => Undefined
      | Some name =>
          match list_rows n' (wrap_int (i + 1)) v with
          | Ret calls =>
              Ret (Lcd_locate 3 (wrap_int (i + 1)) ::
                   Lcd_printf_s row_format (display_name name) :: calls)
          | Undefined => Undefined
          | Blocked => Blocked
          end
      end
  end.

(** Lines 132-161: what the thread does before its loop; the result holds
    the calls and the initial [prevPlayLCD] and [previousSongLCD]. *)
Definition LCDThread_setup (s : Shared)
  : outcome (list lcd_call * (bool * Z)) :=
  match list_rows (Z.to_nat (songCount s)) 0 (songList s) with
  | Ret rows =>
      match lookup (songList s) (currentSong s) with
      | Some name =>
          Ret ([Lcd_cls; Lcd_baudrate 3000000; Lcd_background_color BLACK;
                Lcd_color WHITE; Lcd_text_width 1; Lcd_text_height 1;
                Lcd_locate 0 0; Lcd_printf "Song List: ";
                Lcd_locate 0 1; Lcd_printf "->"] ++
               rows ++
               [Lcd_locate 0 12; Lcd_printf "NOW PLAYING:";
                Lcd_locate 0 13; Lcd_printf_s "%s" (display_name name);
                Lcd_locate 0 14; Lcd_printf "STATUS: PAUSED"],
               (false, 0))
      | None => Undefined
      end
  | Undefined => Undefined
  | Blocked => Blocked
  end.

(** Lines 167-181: the repaint for a new track. *)
Definition repaint_song (previousSongLCD : Z) (s : Shared)
  : outcome (list lcd_call * Z) :=
  if previousSongLCD =? currentSong s then Ret ([], previousSongLCD)
  else
    match lookup (songList s) (currentSong s) with
    | Some name =>
        Ret ([Lcd_locate 0 12; Lcd_printf "NOW PLAYING:";
              Lcd_locate 0 13; Lcd_printf_s "%s   " (display_name name);
              Lcd_locate 0 (wrap_int (previousSongLCD + 1)); Lcd_printf "  ";
              Lcd_locate 0 (wrap_int (currentSong s + 1)); Lcd_printf "->"],
             currentSong s)
    | None => Undefined
    end.

(** Lines 183-197: the repaint for a new play state. *)
Definition repaint_status (prevPlayLCD : bool) (s : Shared)
  : list lcd_call * bool :=
  if Bool.eqb prevPlayLCD (playing s) then ([], prevPlayLCD)
  else
    ([Lcd_locate 0 14;
      Lcd_printf (if playing s then "STATUS: PLAYING"
                  else "STATUS: PAUSED ")],
     playing s).

(** One turn of the [while (true)] of lines 164-199. *)
Definition LCDThread_body (prevPlayLCD : bool) (previousSongLCD : Z)
  (s : Shared) : outcome (list lcd_call * (bool * Z)) :=
  match repaint_song previousSongLCD s with
  | Ret (song_calls, song) =>
      let (status_calls, play) := repaint_status prevPlayLCD s in
      Ret (song_calls ++ status_calls ++ [Lcd_wait 50], (play, song))
  | Undefined => Undefined
  | Blocked => Blocked
  end.

(** The rows of the song list as the set-up prints them, first row at
    line [row]. *)
Fixpoint listing (row : Z) (names : list string) : list lcd_call :=
  match names with
  | [] => []
  | name :: names' =>
      Lcd_locate 3 row :: Lcd_printf_s row_format (display_name name) ::
      listing (row + 1) names'
  end.


(** ** The level meter thread, main.cpp lines 285-314 *)

Module Single.

Definition prec : Z := 24.
Definition emax : Z := 128.

Definition float : Type := spec_float.

Definition sub : float -> float -> float := SFsub prec emax.
Definition mul : float -> float -> float := SFmul prec emax.

(** The float nearest to the decimal literal [num / den]. *)
Definition literal (num den : Z) : float :=
  SFdiv prec emax (binary_normalize prec emax num 0 false)
                  (binary_normalize prec emax den 0 false).

(** The promotion of a float to a double, which is exact. *)
Definition to_double (f : float) : Double.double :=
  match f with
  | S754_finite sg m e =>
      binary_normalize Double.prec Double.emax (cond_Zopp sg (Z.pos m)) e false
  | _ => f
  end.

End Single.

(** The double nearest to the decimal literal [num / den]. *)
Definition double_literal (num den : Z) : Double.double :=
  SFdiv Double.prec Double.emax (Double.of_int num) (Double.of_int den).

Definition double_ltb (a b : Double.double) : bool :=
  SFltb a b.

Record Leds : Type := mkLeds {
  led1 : bool;
  led2 : bool;
  led3 : bool;
  led4 : bool
}.

(** Line 291: [(DACout.read() - 0.25f) * 3.3f], in float. *)
Definition meter_level (dac : Single.float) : Single.float :=
  Single.mul (Single.sub dac (Single.literal 25 100)) (Single.literal 33 10).

(** Lines 292-310: the tiers; the comparisons are made in double. *)
Definition set_tier (level : Single.float) (l : Leds) : Leds :=
  let x := Single.to_double level in
  if double_ltb x (double_literal 825 1000) then
    mkLeds true false false false
  else if double_ltb (double_literal 825 1000) x &&
          double_ltb x (double_literal 165 100) then
    mkLeds true true false false
  else if double_ltb (double_literal 165 100) x &&
          double_ltb x (double_literal 247 100) then
    mkLeds true true true false
  else if double_ltb (double_literal 247 100) x then
    mkLeds true true true true
  else l.

(** One turn of the [while (1)] of lines 287-313: the new LEDs and the
    waits made ([Thread::wait(50)] is inside the [if (playing)]). *)
Definition AudioVisualizerThread_body
  (dac : Single.float) (s : Shared) (l : Leds) : Leds * list Z :=
  if playing s then (set_tier (meter_level dac) l, [50]) else (l, []).

(** The LEDs show a thermometer: a lit LED has every lower one lit. *)
Definition thermometer (l : Leds) : Prop :=
  led1 l = true /\
  (led3 l = true -> led2 l = true) /\
  (led4 l = true -> led3 l = true).

(** ** Sample inputs *)

(** A resting accelerometer: one g on the z axis. *)
Definition flat : gravity := (Double.of_int 0, Double.of_int 0, Double.of_int 1).

(** The board turned upside down: minus one g on the z axis. *)
Definition upside_down : gravity :=
  (Double.of_int 0, Double.of_int 0, Double.of_int (-1)).

(** A library of three tracks, the first selected, paused. *)
Definition three_tracks : Shared :=
  mkShared false 0 3 ["a.wav"; "b.wav"; "c.wav"]%string.

(** A world whose card holds no file the library names. *)
Definition missing_file : World :=
  mkWorld (mkShared true 0 1 ["a.wav"%string]) flat [] false [] [].

(** Two tracks, the second selected; its identifier has one character.
    The transport is writable. *)
Definition short_name_selected : World :=
  mkWorld (mkShared false 1 2 ["a.wav"; "b"]%string) flat [] true [] [].

(** Two tracks, the first selected, as when the program starts.  The
    transport is writable. *)
Definition first_track_selected : World :=
  mkWorld (mkShared false 0 2 ["a.wav"; "tune.wav"]%string) flat [] true [] [].

(** * Proofs *)

(** ** Machine integers *)

Lemma wrap_int_id z : is_int z -> wrap_int z = z.
Proof.
  unfold is_int, INT_MIN, INT_MAX, wrap_int. intros H.
  rewrite Z.mod_small; lia.
Qed.

Lemma wrap_int_is_int z : is_int (wrap_int z).
Proof.
  unfold is_int, INT_MIN, INT_MAX, wrap_int.
  pose proof (Z.mod_pos_bound (z + 2 ^ 31) (2 ^ 32) ltac:(lia)). lia.
Qed.

Lemma in_rangeb_spec s : in_rangeb s = true <-> in_range s.
Proof. unfold in_rangeb, in_range. rewrite andb_true_iff. lia. Qed.

(** ** Facts about navigation *)

Section Navigation.

Variable s : Shared.
Hypothesis count_int : is_int (songCount s).
Hypothesis in_lib : in_range s.

Lemma count_pos : 0 < songCount s.
Proof. unfold in_range in in_lib. lia. Qed.

Lemma last_index_exact : wrap_int (songCount s - 1) = songCount s - 1.
Proof.
  apply wrap_int_id. pose proof count_pos.
  unfold is_int, INT_MIN, INT_MAX in *. lia.
Qed.

Lemma nextSong_value :
  currentSong (nextSong s) = (currentSong s + 1) mod songCount s.
Proof.
  unfold nextSong. rewrite last_index_exact.
  unfold in_range in in_lib.
  destruct (Z.eqb_spec (currentSong s) (songCount s - 1)) as [E | E]; simpl.
  - rewrite E. replace (songCount s - 1 + 1) with (songCount s) by lia.
    now rewrite Z.mod_same by lia.
  - rewrite wrap_int_id
      by (unfold is_int, INT_MIN, INT_MAX in *; lia).
    rewrite Z.mod_small; lia.
Qed.

Lemma prevSong_value :
  currentSong (prevSong s) =
  (currentSong s - 1 + songCount s) mod songCount s.
Proof.
  unfold prevSong. rewrite last_index_exact.
  unfold in_range in in_lib.
  destruct (Z.eqb_spec (currentSong s) 0) as [E | E]; simpl.
  - rewrite E. rewrite Z.mod_small; lia.
  - rewrite wrap_int_id
      by (unfold is_int, INT_MIN, INT_MAX in *; lia).
    replace (currentSong s - 1 + songCount s)
      with (currentSong s - 1 + 1 * songCount s) by lia.
    rewrite Z.mod_add by lia. rewrite Z.mod_small; lia.
Qed.

Lemma nextSong_frame :
  nextSong s = set_currentSong s (currentSong (nextSong s)).
Proof. unfold nextSong. now destruct (_ =? _). Qed.

Lemma prevSong_frame :
  prevSong s = set_currentSong s (currentSong (prevSong s)).
Proof. unfold prevSong. now destruct (_ =? _). Qed.

Lemma nextSong_in_range : in_range (nextSong s).
Proof.
  unfold in_range. rewrite nextSong_value.
  replace (songCount (nextSong s)) with (songCount s)
    by (unfold nextSong; now destruct (_ =? _)).
  apply Z.mod_pos_bound, count_pos.
Qed.

Lemma prevSong_in_range : in_range (prevSong s).
Proof.
  unfold in_range. rewrite prevSong_value.
  replace (songCount (prevSong s)) with (songCount s)
    by (unfold prevSong; now destruct (_ =? _)).
  apply Z.mod_pos_bound, count_pos.
Qed.

End Navigation.

Lemma songCount_nextSong s : songCount (nextSong s) = songCount s.
Proof. unfold nextSong. now destruct (_ =? _). Qed.

Lemma songCount_prevSong s : songCount (prevSong s) = songCount s.
Proof. unfold prevSong. now destruct (_ =? _). Qed.

Lemma songCount_apply_nav n s : songCount (apply_nav n s) = songCount s.
Proof. destruct n; [apply songCount_nextSong | apply songCount_prevSong]. Qed.

Lemma apply_nav_in_range n s :
  is_int (songCount s) -> in_range s -> in_range (apply_nav n s).
Proof.
  intros Hc Hr. destruct n; simpl;
    [now apply nextSong_in_range | now apply prevSong_in_range].
Qed.

(** ** Claims about advance and retreat *)

(** C5.  In a state whose library is not empty and whose track index lies
    in the library, [nextSong] sets the index to
    [(currentSong + 1) mod songCount] and [prevSong] sets it to
    [(currentSong - 1 + songCount) mod songCount]; the last index advances
    to 0, index 0 retreats to the last index, and no other field changes. *)
Theorem advance_retreat_modular (s : Shared) :
  is_int (songCount s) ->
  0 < songCount s ->
  0 <= currentSong s < songCount s ->
  nextSong s = set_currentSong s ((currentSong s + 1) mod songCount s) /\
  prevSong s =
    set_currentSong s ((currentSong s - 1 + songCount s) mod songCount s) /\
  (currentSong s = songCount s - 1 -> currentSong (nextSong s) = 0) /\
  (currentSong s = 0 -> currentSong (prevSong s) = songCount s - 1).
Proof.
  intros Hint Hpos Hr.
  assert (Hn := nextSong_value s Hint Hr).
  assert (Hp := prevSong_value s Hint Hr).
  repeat split.
  - rewrite (nextSong_frame s). now rewrite Hn.
  - rewrite (prevSong_frame s). now rewrite Hp.
  - intros E. rewrite Hn, E.
    replace (songCount s - 1 + 1) with (songCount s) by lia.
    apply Z.mod_same. lia.
  - intros E. rewrite Hp, E.
    replace (0 - 1 + songCount s) with (songCount s - 1) by lia.
    apply Z.mod_small. lia.
Qed.

Lemma advance_retreat_modular_witness :
  let s := mkShared true 2 3 ["a.wav"; "b.wav"; "c.wav"]%string in
  nextSong s = set_currentSong s 0 /\ prevSong s = set_currentSong s 1.
Proof.
  intros s.
  destruct (advance_retreat_modular s) as (Hn & Hp & _).
  - unfold is_int, INT_MIN, INT_MAX; simpl; lia.
  - simpl; lia.
  - simpl; lia.
  - split; [exact Hn | exact Hp].
Defined.

(** C6.  From a track index inside a non-empty library, every state reached
    along any finite sequence of [nextSong] and [prevSong] calls has its
    track index inside the library. *)
Theorem navigation_stays_in_range (ops : list nav) :
  forall s : Shared,
    is_int (songCount s) ->
    0 < songCount s ->
    in_range s ->
    Forall in_range (nav_states ops s).
Proof.
  induction ops as [| n ops IH]; intros s Hint Hpos Hr; simpl.
  - constructor.
  - assert (Hr' : in_range (apply_nav n s)) by now apply apply_nav_in_range.
    constructor; [exact Hr' |].
    apply IH; rewrite ?songCount_apply_nav; assumption.
Qed.

Lemma navigation_stays_in_range_witness :
  Forall in_range
    (nav_states [Advance; Advance; Advance; Retreat; Retreat]
       (mkShared false 0 3 ["a.wav"; "b.wav"; "c.wav"]%string)).
Proof.
  apply navigation_stays_in_range.
  - unfold is_int, INT_MIN, INT_MAX; simpl; lia.
  - simpl; lia.
  - unfold in_range; simpl; lia.
Defined.

(** C7.  From a track index inside a non-empty library, [nextSong] followed
    by [prevSong] gives back the starting state, and so does [prevSong]
    followed by [nextSong]; indices 0 and [songCount - 1] are included. *)
Theorem advance_retreat_inverse (s : Shared) :
  is_int (songCount s) ->
  0 < songCount s ->
  in_range s ->
  prevSong (nextSong s) = s /\ nextSong (prevSong s) = s.
Proof.
  intros Hint Hpos Hr.
  assert (Hlast := last_index_exact s Hint Hr).
  destruct s as [pl cur cnt lst].
  unfold in_range, is_int, INT_MIN, INT_MAX in *. simpl in *.
  split.
  - unfold nextSong; simpl. rewrite Hlast.
    destruct (Z.eqb_spec cur (cnt - 1)) as [E | E].
    + unfold prevSong, set_currentSong; simpl. rewrite Hlast. now subst cur.
    + unfold prevSong, set_currentSong; simpl.
      rewrite (wrap_int_id (cur + 1))
        by (unfold is_int, INT_MIN, INT_MAX; lia).
      destruct (Z.eqb_spec (cur + 1) 0) as [E0 | E0]; [lia |].
      rewrite wrap_int_id by (unfold is_int, INT_MIN, INT_MAX; lia).
      f_equal. lia.
  - unfold prevSong; simpl.
    destruct (Z.eqb_spec cur 0) as [E | E].
    + unfold nextSong, set_currentSong; simpl. rewrite Hlast.
      rewrite Z.eqb_refl. now subst cur.
    + unfold nextSong, set_currentSong; simpl. rewrite Hlast.
      rewrite (wrap_int_id (cur - 1))
        by (unfold is_int, INT_MIN, INT_MAX; lia).
      destruct (Z.eqb_spec (cur - 1) (cnt - 1)) as [E1 | E1]; [lia |].
      rewrite wrap_int_id by (unfold is_int, INT_MIN, INT_MAX; lia).
      f_equal. lia.
Qed.

Lemma advance_retreat_inverse_witness :
  let first := mkShared false 0 3 ["a.wav"; "b.wav"; "c.wav"]%string in
  let last := mkShared true 2 3 ["a.wav"; "b.wav"; "c.wav"]%string in
  (currentSong (nextSong first) = 1 /\ currentSong (prevSong first) = 2 /\
   prevSong (nextSong first) = first /\ nextSong (prevSong first) = first) /\
  (currentSong (nextSong last) = 0 /\ currentSong (prevSong last) = 1 /\
   prevSong (nextSong last) = last /\ nextSong (prevSong last) = last).
Proof.
  intros first last. split.
  - split; [reflexivity |]. split; [reflexivity |].
    apply (advance_retreat_inverse first).
    + unfold is_int, INT_MIN, INT_MAX; simpl; lia.
    + simpl; lia.
    + unfold in_range; simpl; lia.
  - split; [reflexivity |]. split; [reflexivity |].
    apply (advance_retreat_inverse last).
    + unfold is_int, INT_MIN, INT_MAX; simpl; lia.
    + simpl; lia.
    + unfold in_range; simpl; lia.
Defined.

(** ** The monad and the world *)

Lemma bind_Ret {A B : Type} (m : M A) (k : A -> M B) w a w' :
  m w = Ret (a, w') -> bind m k w = k a w'.
Proof. unfold bind. now intros ->. Qed.

Lemma bind_Undefined {A B : Type} (m : M A) (k : A -> M B) w :
  m w = Undefined -> bind m k w = Undefined.
Proof. unfold bind. now intros ->. Qed.

(** Runs the first action of a sequence, given a tactic that computes its
    result. *)
Ltac run_by tac := erewrite bind_Ret by tac; cbv beta iota.

Lemma add_events_nil w : add_events w [] = w.
Proof. destruct w. unfold add_events. simpl. now rewrite app_nil_r. Qed.

Lemma add_events_app w a b :
  add_events (add_events w a) b = add_events w (a ++ b).
Proof. unfold add_events. simpl. now rewrite app_assoc. Qed.

Lemma bt_sent_app a b : bt_sent (a ++ b) = bt_sent a ++ bt_sent b.
Proof.
  induction a as [| e a IH]; simpl; [reflexivity |].
  destruct e; simpl; now rewrite IH.
Qed.

Lemma bt_sent_putc l : bt_sent (map BtPutc l) = l.
Proof. induction l as [| c l IH]; simpl; [reflexivity | now rewrite IH]. Qed.

(** ** Strings as character lists *)

Lemma get_nth_error (s : string) :
  forall n, String.get n s = nth_error (list_ascii_of_string s) n.
Proof.
  induction s as [| c s IH]; intros [| n]; simpl; auto.
Qed.

Lemma length_chars (s : string) :
  List.length (list_ascii_of_string s) = String.length s.
Proof. induction s as [| c s IH]; simpl; [reflexivity | now rewrite IH]. Qed.

Lemma chars_substring0 (s : string) :
  forall n, list_ascii_of_string (substring 0 n s) =
            firstn n (list_ascii_of_string s).
Proof.
  induction s as [| c s IH]; intros [| n]; simpl; auto.
  now rewrite IH.
Qed.

Lemma skipn_nth_error {A : Type} (l : list A) :
  forall k x, nth_error l k = Some x -> skipn k l = x :: skipn (S k) l.
Proof.
  induction l as [| y l IH]; intros [| k] x H; simpl in *; try discriminate.
  - now inversion H.
  - now apply IH.
Qed.

Lemma string_at_inside (s : string) (i : Z) (w : World) :
  0 <= i < size s ->
  exists c, nth_error (list_ascii_of_string s) (Z.to_nat i) = Some c /\
            string_at s i w = Ret (c, w).
Proof.
  intros Hi. unfold string_at, size in *.
  destruct (Z.ltb_spec i 0) as [? | _]; [lia |].
  rewrite get_nth_error.
  destruct (nth_error (list_ascii_of_string s) (Z.to_nat i)) as [c |] eqn:E.
  - now exists c.
  - apply nth_error_None in E. rewrite length_chars in E. lia.
Qed.

Lemma string_at_beyond (s : string) (i : Z) (w : World) :
  size s < i -> string_at s i w = Undefined.
Proof.
  intros Hi. unfold string_at, size in *.
  destruct (Z.ltb_spec i 0) as [? | _]; [reflexivity |].
  rewrite get_nth_error.
  destruct (nth_error (list_ascii_of_string s) (Z.to_nat i)) as [c |] eqn:E.
  - assert (Hlt : (Z.to_nat i < List.length (list_ascii_of_string s))%nat)
      by (apply nth_error_Some; congruence).
    rewrite length_chars in Hlt. lia.
  - destruct (Z.eqb_spec i (Z.of_nat (String.length s))); [lia | reflexivity].
Qed.

Lemma string_at_defined (s : string) (i : Z) (w : World) :
  0 <= i <= size s -> exists c, string_at s i w = Ret (c, w).
Proof.
  intros Hi. unfold string_at.
  destruct (Z.ltb_spec i 0) as [? | _]; [lia |].
  destruct (String.get (Z.to_nat i) s) as [c |] eqn:E.
  - now exists c.
  - rewrite get_nth_error in E. apply nth_error_None in E.
    rewrite length_chars in E. unfold size in *.
    destruct (Z.eqb_spec i (Z.of_nat (String.length s))); [| lia].
    now exists zero.
Qed.

(** ** The character loops of the status push *)

(** A loop that stays inside the string sends the characters it visits. *)
Lemma putc_loop_inside (s : string) (n : nat) :
  forall (i : Z) (w : World),
    0 <= i -> i + Z.of_nat n <= size s ->
    for_upto n i (fun i => c <- string_at s i ;; bt_putc c) w =
    Ret (tt, add_events w
               (map BtPutc
                  (firstn n (skipn (Z.to_nat i) (list_ascii_of_string s))))).
Proof.
  induction n as [| n IH]; intros i w Hi Hn.
  - simpl. unfold ret. now rewrite add_events_nil.
  - cbn [for_upto].
    destruct (string_at_inside s i w ltac:(lia)) as (c & Hc & Hat).
    erewrite bind_Ret; cycle 1.
    { erewrite bind_Ret by exact Hat. reflexivity. }
    rewrite IH by lia.
    rewrite add_events_app.
    rewrite (skipn_nth_error _ _ _ Hc).
    replace (Z.to_nat (i + 1)) with (S (Z.to_nat i)) by lia.
    reflexivity.
Qed.

(** A loop whose range reaches past the terminator leaves defined
    behaviour. *)
Lemma putc_loop_overrun (s : string) (n : nat) :
  forall (i : Z) (w : World),
    0 <= i <= size s + 1 -> size s + 1 < i + Z.of_nat n ->
    for_upto n i (fun i => c <- string_at s i ;; bt_putc c) w = Undefined.
Proof.
  induction n as [| n IH]; intros i w Hi Hn.
  - lia.
  - cbn [for_upto].
    destruct (Z.eq_dec i (size s + 1)) as [E | E].
    + apply bind_Undefined. apply bind_Undefined.
      apply string_at_beyond. lia.
    + destruct (string_at_defined s i w ltac:(lia)) as (c & Hat).
      erewrite bind_Ret; cycle 1.
      { erewrite bind_Ret by exact Hat. reflexivity. }
      apply IH; lia.
Qed.

Lemma copy_bound_long (name : string) :
  4 <= size name < SIZE_MOD -> copy_bound name = size name - 4.
Proof.
  intros H. unfold copy_bound, wrap_size. apply Z.mod_small. lia.
Qed.

Lemma copy_bound_short (name : string) :
  size name < 4 -> copy_bound name = SIZE_MOD + size name - 4.
Proof.
  intros H. unfold copy_bound, wrap_size, SIZE_MOD, size in *.
  symmetry. apply Z.mod_unique with (q := -1); lia.
Qed.

Lemma copy_name_long (name : string) (w : World) :
  4 <= size name < SIZE_MOD ->
  copy_name name w =
  Ret (tt, add_events w
             (map BtPutc (list_ascii_of_string (strip_suffix4 name)))).
Proof.
  intros H. unfold copy_name. rewrite copy_bound_long by exact H.
  rewrite putc_loop_inside by lia.
  unfold strip_suffix4. rewrite chars_substring0. simpl skipn.
  unfold size in *.
  replace (Z.to_nat (Z.of_nat (String.length name) - 4))
    with (String.length name - 4)%nat by lia.
  reflexivity.
Qed.

Lemma copy_name_short (name : string) (w : World) :
  size name < 4 -> copy_name name w = Undefined.
Proof.
  intros H. unfold copy_name. rewrite copy_bound_short by exact H.
  apply putc_loop_overrun; unfold size, SIZE_MOD in *; lia.
Qed.

(** ** The status push *)

Lemma vector_at_current (s : Shared) (name : string) (w : World) :
  current_name s name -> vector_at (songList s) (currentSong s) w = Ret (name, w).
Proof.
  intros [Hi Hn]. unfold vector_at.
  destruct (Z.ltb_spec (currentSong s) 0) as [? | _]; [lia |].
  now rewrite Hn.
Qed.

Lemma preamble_sent (w : World) :
  for_upto 14 0 (fun i => c <- string_at "Current Song: " i ;; bt_putc c) w =
  Ret (tt, add_events w (map BtPutc (list_ascii_of_string "Current Song: "))).
Proof.
  rewrite putc_loop_inside by (unfold size; simpl; lia). reflexivity.
Qed.

Lemma status_push_not_writeable (p : Z) (w : World) :
  writeable w = false -> status_push p w = Ret (p, w).
Proof.
  intros H. unfold status_push, bind, bt_writeable. now rewrite H.
Qed.

Lemma status_push_same (p : Z) (w : World) :
  writeable w = true -> p = currentSong (shared w) ->
  status_push p w = Ret (p, w).
Proof.
  intros H E. unfold status_push, bind, bt_writeable, get_shared.
  rewrite H. subst p. now rewrite Z.eqb_refl.
Qed.

Lemma status_push_changed (p : Z) (w : World) (name : string) :
  writeable w = true ->
  p <> currentSong (shared w) ->
  current_name (shared w) name ->
  4 <= size name < SIZE_MOD ->
  status_push p w =
  Ret (currentSong (shared w),
       add_events w (map BtPutc (status_message name))).
Proof.
  intros H E Hname Hlen.
  unfold status_push.
  run_by ltac:(unfold bt_writeable; rewrite H; reflexivity).
  run_by reflexivity.
  destruct (Z.eqb_spec p (currentSong (shared w))) as [? | _];
    [contradiction |]. cbn [negb].
  run_by ltac:(apply preamble_sent).
  run_by ltac:(apply vector_at_current; exact Hname).
  run_by ltac:(apply copy_name_long; exact Hlen).
  run_by reflexivity.
  unfold ret, status_message.
  rewrite !add_events_app, !map_app. reflexivity.
Qed.

Lemma status_push_short (p : Z) (w : World) (name : string) :
  writeable w = true ->
  p <> currentSong (shared w) ->
  current_name (shared w) name ->
  size name < 4 ->
  status_push p w = Undefined.
Proof.
  intros H E Hname Hlen.
  unfold status_push.
  run_by ltac:(unfold bt_writeable; rewrite H; reflexivity).
  run_by reflexivity.
  destruct (Z.eqb_spec p (currentSong (shared w))) as [? | _];
    [contradiction |]. cbn [negb].
  run_by ltac:(apply preamble_sent).
  run_by ltac:(apply vector_at_current; exact Hname).
  apply bind_Undefined. now apply copy_name_short.
Qed.

(** C10.  The bound of the copy loop is [size() - 4] computed in [size_t].
    For an identifier shorter than 4 characters it wraps around to
    [2^32 + size() - 4], the loop range reaches past the end of the string
    and the copy leaves defined behaviour; for an identifier of at least 4
    characters the bound is [size() - 4], every index the loop uses lies
    inside the string, and the copy sends the identifier without its last 4
    characters. *)
Theorem copy_loop_needs_four_characters (name : string) :
  size name < SIZE_MOD ->
  (size name < 4 ->
     copy_bound name = SIZE_MOD + size name - 4 /\
     size name + 1 < copy_bound name /\
     forall w, copy_name name w = Undefined) /\
  (4 <= size name ->
     copy_bound name = size name - 4 /\
     (forall i, 0 <= i < copy_bound name -> 0 <= i < size name) /\
     forall w, copy_name name w =
               Ret (tt, add_events w
                          (map BtPutc
                             (list_ascii_of_string (strip_suffix4 name))))).
Proof.
  intros Hsz. split; intros Hlen.
  - rewrite copy_bound_short by exact Hlen. repeat split.
    + unfold SIZE_MOD, size in *. lia.
    + intros w. now apply copy_name_short.
  - rewrite copy_bound_long by lia. repeat split; try lia.
    intros w. apply copy_name_long. lia.
Qed.

Lemma copy_loop_needs_four_characters_witness :
  copy_bound "ab" = 4294967294 /\
  copy_bound "song.wav" = 4 /\
  forall w, copy_name "song.wav" w =
            Ret (tt, add_events w (map BtPutc ["s"; "o"; "n"; "g"]%char)).
Proof.
  destruct (copy_loop_needs_four_characters "ab") as [Hshort _];
    [unfold size, SIZE_MOD; simpl; lia |].
  destruct (copy_loop_needs_four_characters "song.wav") as [_ Hlong];
    [unfold size, SIZE_MOD; simpl; lia |].
  destruct Hshort as (Hb & _); [unfold size; simpl; lia |].
  destruct Hlong as (Hb' & _ & Hrun); [unfold size; simpl; lia |].
  split; [exact Hb | split; [exact Hb' | exact Hrun]].
Defined.

(** On a cycle where the transport is writable and the current track's
    identifier has at least 4 characters, the status push sends a message if
    and only if [currentSong] differs from [previousSongBLE]; the message is
    ["Current Song: "], the identifier without its last 4 characters, and
    one newline, and [previousSongBLE] becomes [currentSong]. *)
Theorem status_push_on_change (w : World) (p : Z) (name : string) :
  writeable w = true ->
  current_name (shared w) name ->
  4 <= size name < SIZE_MOD ->
  (p <> currentSong (shared w) ->
     status_push p w =
     Ret (currentSong (shared w),
          add_events w (map BtPutc (status_message name)))) /\
  (p = currentSong (shared w) -> status_push p w = Ret (p, w)).
Proof.
  intros Hw Hname Hlen. split; intros Hp.
  - now apply status_push_changed.
  - now apply status_push_same.
Qed.

Lemma status_push_on_change_witness :
  let w := mkWorld (mkShared false 1 2 ["a.wav"; "tune.wav"]%string)
             flat [] true [] [] in
  status_push 0 w =
    Ret (1, add_events w
              (map BtPutc (list_ascii_of_string "Current Song: tune" ++
                           [newline]))) /\
  status_push 1 w = Ret (1, w).
Proof.
  intros w.
  destruct (status_push_on_change w 0 "tune.wav") as [Hpush _].
  - reflexivity.
  - unfold current_name; simpl; split; [lia | reflexivity].
  - unfold size, SIZE_MOD; simpl; lia.
  - destruct (status_push_on_change w 1 "tune.wav") as [_ Hquiet].
    + reflexivity.
    + unfold current_name; simpl; split; [lia | reflexivity].
    + unfold size, SIZE_MOD; simpl; lia.
    + split; [apply Hpush; simpl; lia | apply Hquiet; reflexivity].
Defined.

(** C9, the code at a short identifier.  With the 1-character identifier
    ["b"] selected, the transport writable and [previousSongBLE] different
    from [currentSong], the bound [size() - 4] of the copy loop wraps around
    in [size_t] and the push leaves defined behaviour; it does not send
    ["Current Song: "] and a newline. *)
Lemma status_push_short_name :
  writeable short_name_selected = true /\
  current_name (shared short_name_selected) "b" /\
  0 <> currentSong (shared short_name_selected) /\
  status_message "b" = list_ascii_of_string "Current Song: " ++ [newline] /\
  status_push 0 short_name_selected = Undefined /\
  status_push 0 short_name_selected <>
    Ret (currentSong (shared short_name_selected),
         add_events short_name_selected (map BtPutc (status_message "b"))).
Proof.
  assert (Hname : current_name (shared short_name_selected) "b")
    by (unfold current_name; simpl; split; [lia | reflexivity]).
  assert (Hrun : status_push 0 short_name_selected = Undefined).
  { apply status_push_short with (name := "b"%string).
    - reflexivity.
    - simpl; lia.
    - exact Hname.
    - unfold size; simpl; lia. }
  split; [reflexivity |].
  split; [exact Hname |].
  split; [simpl; lia |].
  split; [reflexivity |].
  split; [exact Hrun |].
  rewrite Hrun. discriminate.
Qed.

(** C3, as the code has it.  [previousSongBLE] starts at 0, which is a
    valid track index of every non-empty library.  A cycle whose transport
    is not writable leaves it as it is; a writable cycle started with the
    initial value sends nothing when [currentSong] is 0 and sends the status
    message when [currentSong] is not 0; after a push [previousSongBLE]
    equals [currentSong]. *)
Theorem first_push_only_off_track_zero (w : World) (name : string) :
  current_name (shared w) name ->
  4 <= size name < SIZE_MOD ->
  previousSongBLE_init = 0 /\
  (0 < songCount (shared w) ->
     in_range (set_currentSong (shared w) previousSongBLE_init)) /\
  (writeable w = false -> forall p, status_push p w = Ret (p, w)) /\
  (writeable w = true -> currentSong (shared w) = 0 ->
     status_push previousSongBLE_init w = Ret (previousSongBLE_init, w)) /\
  (writeable w = true -> currentSong (shared w) <> 0 ->
     status_push previousSongBLE_init w =
     Ret (currentSong (shared w),
          add_events w (map BtPutc (status_message name)))) /\
  (writeable w = true -> forall p, p <> currentSong (shared w) ->
     status_push p w =
     Ret (currentSong (shared w),
          add_events w (map BtPutc (status_message name)))).
Proof.
  intros Hname Hlen. split; [reflexivity |].
  split; [unfold in_range, previousSongBLE_init; simpl; lia |].
  split; [intros Hw p; now apply status_push_not_writeable |].
  split; [intros Hw Hc; apply status_push_same; [exact Hw | now rewrite Hc] |].
  split.
  - intros Hw Hc. apply status_push_changed; try assumption.
    unfold previousSongBLE_init. lia.
  - intros Hw p Hp. now apply status_push_changed.
Qed.

Lemma first_push_only_off_track_zero_witness :
  let w := mkWorld (mkShared false 1 2 ["a.wav"; "tune.wav"]%string)
             flat [] true [] [] in
  status_push previousSongBLE_init w =
  Ret (1, add_events w (map BtPutc (status_message "tune.wav"))).
Proof.
  intros w.
  destruct (first_push_only_off_track_zero w "tune.wav")
    as (_ & _ & _ & _ & Hpush & _).
  - unfold current_name; simpl; split; [lia | reflexivity].
  - unfold size, SIZE_MOD; simpl; lia.
  - apply Hpush; [reflexivity | simpl; lia].
Defined.

(** C3 as stated fails: the initial value of [previousSongBLE] is the valid
    track index 0, and with [currentSong] at 0 the first writable cycle
    sends nothing. *)
Lemma first_cycle_silent_on_track_zero :
  in_range (set_currentSong (shared first_track_selected)
              previousSongBLE_init) /\
  writeable first_track_selected = true /\
  status_push previousSongBLE_init first_track_selected =
    Ret (previousSongBLE_init, first_track_selected) /\
  BluetoothThread_body previousSongBLE_init first_track_selected =
    Ret (previousSongBLE_init, add_events first_track_selected [Wait 50]) /\
  bt_sent (trace (add_events first_track_selected [Wait 50])) = [].
Proof.
  split; [unfold in_range, previousSongBLE_init; simpl; lia |].
  split; [reflexivity |].
  split; [reflexivity |].
  split; reflexivity.
Qed.

(** ** The command reader *)

Lemma read_commands_frame (w : World) (code edge : ascii) (rest : list ascii) :
  rx w = frame code edge ++ rest ->
  read_commands w =
  if (edge =? "0")%char then dispatch code (set_rx w rest)
  else Ret (tt, set_rx w rest).
Proof.
  intros H. unfold frame in H. simpl in H.
  unfold read_commands.
  run_by ltac:(unfold bt_readable; rewrite H; reflexivity).
  run_by ltac:(unfold bt_getc; rewrite H; reflexivity).
  rewrite Ascii.eqb_refl.
  run_by reflexivity. rewrite Ascii.eqb_refl.
  run_by reflexivity. run_by reflexivity.
  destruct (edge =? "0")%char; reflexivity.
Qed.

Lemma dispatch_other (code : ascii) (w : World) :
  ~ In code ["1"; "2"; "3"; "4"]%char -> dispatch code w = Ret (tt, w).
Proof.
  intros H. unfold dispatch.
  destruct (Ascii.eqb_spec code "1") as [-> | _]; [exfalso; apply H; simpl; auto |].
  destruct (Ascii.eqb_spec code "2") as [-> | _]; [exfalso; apply H; simpl; auto |].
  destruct (Ascii.eqb_spec code "3") as [-> | _]; [exfalso; apply H; simpl; auto |].
  destruct (Ascii.eqb_spec code "4") as [-> | _]; [exfalso; apply H; simpl; auto |].
  reflexivity.
Qed.

Lemma read_commands_not_bang (w : World) (c0 : ascii) (rest : list ascii) :
  rx w = c0 :: rest -> c0 <> "!"%char ->
  read_commands w = Ret (tt, set_rx w rest).
Proof.
  intros H Hc. unfold read_commands.
  run_by ltac:(unfold bt_readable; rewrite H; reflexivity).
  run_by ltac:(unfold bt_getc; rewrite H; reflexivity).
  apply Ascii.eqb_neq in Hc. now rewrite Hc.
Qed.

Lemma read_commands_not_B (w : World) (c1 : ascii) (rest : list ascii) :
  rx w = "!"%char :: c1 :: rest -> c1 <> "B"%char ->
  read_commands w = Ret (tt, set_rx w rest).
Proof.
  intros H Hc. unfold read_commands.
  run_by ltac:(unfold bt_readable; rewrite H; reflexivity).
  run_by ltac:(unfold bt_getc; rewrite H; reflexivity).
  rewrite Ascii.eqb_refl.
  run_by reflexivity.
  apply Ascii.eqb_neq in Hc. now rewrite Hc.
Qed.

Lemma status_push_idle (p : Z) (w : World) :
  p = currentSong (shared w) -> status_push p w = Ret (p, w).
Proof.
  intros E. destruct (writeable w) eqn:Hw.
  - now apply status_push_same.
  - now apply status_push_not_writeable.
Qed.

(** A turn of the thread whose push has nothing to report runs the command
    reader and waits. *)
Lemma body_idle (p : Z) (w w' : World) :
  p = currentSong (shared w) ->
  read_commands w = Ret (tt, w') ->
  BluetoothThread_body p w = Ret (p, add_events w' [Wait 50]).
Proof.
  intros E H. unfold BluetoothThread_body.
  run_by ltac:(apply status_push_idle; exact E).
  run_by ltac:(exact H).
  reflexivity.
Qed.

(** C2.  For a complete frame ['!'; 'B'; code; edge] at the head of the
    queue: with edge '0', code '1' runs [playSong], '2' runs [nextSong], '3'
    runs [prevSong] and '4' runs [shuffleSong]; with another edge or another
    code the four bytes are consumed and nothing else changes.  In
    particular "!B10" with [playing = false] ends with [playing = true], and
    "!B11" leaves the shared state as it was. *)
Theorem remote_frame_actions
  (w : World) (code edge : ascii) (rest : list ascii) :
  rx w = frame code edge ++ rest ->
  (edge = "0"%char /\ code = "1"%char ->
     read_commands w =
     Ret (tt, set_shared (set_rx w rest) (playSong (shared w)))) /\
  (edge = "0"%char /\ code = "2"%char ->
     read_commands w =
     Ret (tt, set_shared (set_rx w rest) (nextSong (shared w)))) /\
  (edge = "0"%char /\ code = "3"%char ->
     read_commands w =
     Ret (tt, set_shared (set_rx w rest) (prevSong (shared w)))) /\
  (edge = "0"%char /\ code = "4"%char ->
     read_commands w =
     match shuffleSong (accel w) (shared w) with
     | Ret s' => Ret (tt, set_shared (set_rx w rest) s')
     | Undefined => Undefined
     | Blocked => Blocked
     end) /\
  (edge <> "0"%char \/ ~ In code ["1"; "2"; "3"; "4"]%char ->
     read_commands w = Ret (tt, set_rx w rest)) /\
  (edge = "0"%char /\ code = "1"%char /\ playing (shared w) = false ->
     exists w', read_commands w = Ret (tt, w') /\
                playing (shared w') = true) /\
  (edge = "1"%char /\ code = "1"%char ->
     exists w', read_commands w = Ret (tt, w') /\ shared w' = shared w).
Proof.
  intros H. rewrite (read_commands_frame w code edge rest H).
  repeat split.
  - intros [-> ->]. reflexivity.
  - intros [-> ->]. reflexivity.
  - intros [-> ->]. reflexivity.
  - intros [-> ->]. reflexivity.
  - intros [He | Hc].
    + apply Ascii.eqb_neq in He. now rewrite He.
    + destruct (edge =? "0")%char; [now apply dispatch_other | reflexivity].
  - intros (-> & -> & Hp). eexists. split; [reflexivity |].
    simpl. now rewrite Hp.
  - intros [-> ->]. eexists. split; reflexivity.
Qed.

Lemma remote_frame_actions_witness :
  let w := mkWorld (mkShared false 0 2 ["a.wav"; "tune.wav"]%string)
             flat (frame "2" "0" ++ ["!"]%char) true [] [] in
  read_commands w =
  Ret (tt, mkWorld (mkShared false 1 2 ["a.wav"; "tune.wav"]%string)
             flat ["!"]%char true [] []).
Proof.
  intros w.
  destruct (remote_frame_actions w "2" "0" ["!"]%char) as (_ & Hnext & _).
  - reflexivity.
  - rewrite Hnext; [reflexivity | split; reflexivity].
Defined.

(** C8.  When the first byte the reader takes is not '!', or the byte after
    a '!' is not 'B', the reader only consumes those bytes: the shared state
    and the trace of peripheral calls (display included) are what they
    were.  The frame "!XY0" is consumed over three turns of the thread with
    no change to the shared state and nothing but the waits in the trace. *)
Theorem malformed_preamble_dropped (w : World) :
  (forall c0 rest,
     rx w = c0 :: rest -> c0 <> "!"%char ->
     read_commands w = Ret (tt, set_rx w rest) /\
     shared (set_rx w rest) = shared w /\
     trace (set_rx w rest) = trace w) /\
  (forall c1 rest,
     rx w = "!"%char :: c1 :: rest -> c1 <> "B"%char ->
     read_commands w = Ret (tt, set_rx w rest) /\
     shared (set_rx w rest) = shared w /\
     trace (set_rx w rest) = trace w) /\
  (forall p,
     rx w = ["!"; "X"; "Y"; "0"]%char -> p = currentSong (shared w) ->
     BluetoothThread_turns 3 p w =
     Ret (p, add_events (set_rx w []) [Wait 50; Wait 50; Wait 50])).
Proof.
  split; [| split].
  - intros c0 rest H Hc. split; [| split; reflexivity].
    now apply read_commands_not_bang with (c0 := c0).
  - intros c1 rest H Hc. split; [| split; reflexivity].
    now apply read_commands_not_B with (c1 := c1).
  - intros p H E. cbn [BluetoothThread_turns].
    run_by ltac:(apply body_idle;
                 [exact E | apply (read_commands_not_B w "X" ["Y"; "0"]%char);
                            [exact H | discriminate]]).
    run_by ltac:(apply body_idle;
                 [exact E | apply read_commands_not_bang with (c0 := "Y"%char);
                            [reflexivity | discriminate]]).
    run_by ltac:(apply body_idle;
                 [exact E | apply read_commands_not_bang with (c0 := "0"%char);
                            [reflexivity | discriminate]]).
    unfold ret, add_events, set_rx. cbn.
    now rewrite <- !app_assoc.
Qed.

Lemma malformed_preamble_dropped_witness :
  let w := mkWorld (mkShared true 1 2 ["a.wav"; "tune.wav"]%string)
             flat ["!"; "X"; "Y"; "0"]%char true [] [] in
  BluetoothThread_turns 3 1 w =
  Ret (1, mkWorld (mkShared true 1 2 ["a.wav"; "tune.wav"]%string)
            flat [] true [] [Wait 50; Wait 50; Wait 50]).
Proof.
  intros w.
  destruct (malformed_preamble_dropped w) as (_ & _ & Hrun).
  apply Hrun; reflexivity.
Defined.

(** ** Shuffle *)

(** With a sample that is not negative the new index lies in the library. *)
Lemma shuffleSong_nonneg_sample (g : gravity) (s : Shared) (n : Z) :
  entropy g = Some n -> 0 <= n -> 0 < songCount s ->
  shuffleSong g s = Ret (set_currentSong s (n mod songCount s)) /\
  in_range (set_currentSong s (n mod songCount s)).
Proof.
  intros He Hn Hc. unfold shuffleSong. rewrite He.
  destruct (Z.eqb_spec (songCount s) 0) as [? | _]; [lia |].
  destruct (Z.eqb_spec (songCount s) (-1)) as [? | _]; [lia |].
  rewrite andb_false_r. simpl orb. cbv iota.
  rewrite Z.rem_mod_nonneg by lia. split; [reflexivity |].
  unfold in_range. simpl. apply Z.mod_pos_bound. lia.
Qed.

(** Whatever the sample, the new index is smaller than [songCount] in
    magnitude, and it is not positive when the sample is negative. *)
Lemma shuffleSong_magnitude (g : gravity) (s : Shared) (n : Z) :
  entropy g = Some n -> 0 < songCount s ->
  shuffleSong g s = Ret (set_currentSong s (Z.rem n (songCount s))) /\
  - songCount s < Z.rem n (songCount s) < songCount s /\
  (n < 0 -> Z.rem n (songCount s) <= 0).
Proof.
  intros He Hc. unfold shuffleSong. rewrite He.
  destruct (Z.eqb_spec (songCount s) 0) as [? | _]; [lia |].
  destruct (Z.eqb_spec (songCount s) (-1)) as [? | _]; [lia |].
  rewrite andb_false_r. simpl orb. cbv iota.
  split; [reflexivity |].
  destruct (Z.le_gt_cases 0 n) as [Hn | Hn].
  - pose proof (Z.rem_bound_pos n (songCount s) Hn Hc). lia.
  - pose proof (Z.rem_bound_pos (- n) (songCount s) ltac:(lia) Hc) as Hb.
    rewrite Z.rem_opp_l' in Hb. lia.
Qed.

(** C1, the code at a negative reading.  With the board upside down the
    accelerometer returns (0, 0, -1); [int(100000 * (x + y + z))] is
    -100000 and [-100000 % 3] is -1, so [shuffleSong] leaves [currentSong]
    at -1 in a library of three tracks. *)
Theorem shuffle_negative_reading :
  0 < songCount three_tracks /\
  entropy upside_down = Some (-100000) /\
  shuffleSong upside_down three_tracks =
    Ret (set_currentSong three_tracks (-1)) /\
  ~ in_range (set_currentSong three_tracks (-1)).
Proof.
  split; [simpl; lia |].
  split; [reflexivity |].
  split; [reflexivity |].
  unfold in_range. simpl. lia.
Qed.

(** ** The playback loop *)

Lemma main_loop_open_failure (w : World) (name : string) :
  current_name (shared w) name ->
  existsb (String.eqb ("/sd/myMusic/" ++ name)%string) (card w) = false ->
  main_loop_body w =
  Ret (tt, set_shared
             (add_events w
                [Fopen ("/sd/myMusic/" ++ name)%string false;
                 LcdLocate 0 12; LcdPrintf "file open error!"%string;
                 Wait 1000; Play None; Fclose None])
             (set_playing (shared w) false)).
Proof.
  intros Hname Hcard. unfold main_loop_body.
  run_by reflexivity.
  run_by ltac:(apply vector_at_current; exact Hname).
  run_by ltac:(unfold fopen; rewrite Hcard; reflexivity).
  unfold bind, emit, ret, modify_shared, set_shared, add_events. cbn.
  now rewrite <- !app_assoc.
Qed.

(** When the file of the selected track opens, a turn of the playback loop
    prints nothing: it waits, plays the handle it opened, closes that same
    handle and clears [playing]; the track selection and the library are
    left as they were. *)
Lemma main_loop_open_success (w : World) (name : string) :
  current_name (shared w) name ->
  existsb (String.eqb ("/sd/myMusic/" ++ name)%string) (card w) = true ->
  main_loop_body w =
  Ret (tt, set_shared
             (add_events w
                [Fopen ("/sd/myMusic/" ++ name)%string true;
                 Wait 1000;
                 Play (Some ("/sd/myMusic/" ++ name)%string);
                 Fclose (Some ("/sd/myMusic/" ++ name)%string)])
             (set_playing (shared w) false)).
Proof.
  intros Hname Hcard. unfold main_loop_body.
  run_by reflexivity.
  run_by ltac:(apply vector_at_current; exact Hname).
  run_by ltac:(unfold fopen; rewrite Hcard; reflexivity).
  unfold bind, emit, ret, modify_shared, set_shared, add_events. cbn.
  now rewrite <- !app_assoc.
Qed.

(** C4, the code at a failed open.  The card holds no "/sd/myMusic/a.wav":
    the turn prints "file open error!" at (0, 12), waits, and then still
    calls [waver.play] and [fclose] on the null handle before it clears
    [playing]. *)
Theorem playback_called_on_failed_open :
  main_loop_body missing_file =
  Ret (tt, mkWorld (mkShared false 0 1 ["a.wav"%string]) flat [] false []
             [Fopen "/sd/myMusic/a.wav"%string false;
              LcdLocate 0 12; LcdPrintf "file open error!"%string;
              Wait 1000; Play None; Fclose None]).
Proof. reflexivity. Qed.

(** * Further properties of the code *)

(** ** Start-up *)

Lemma fold_add_entry (entries : list string) :
  forall s,
    songList (fold_left add_entry entries s) = songList s ++ entries /\
    playing (fold_left add_entry entries s) = playing s /\
    currentSong (fold_left add_entry entries s) = currentSong s.
Proof.
  induction entries as [| e entries IH]; intros s; simpl.
  - now rewrite app_nil_r.
  - destruct (IH (add_entry s e)) as (Hl & Hp & Hc).
    rewrite Hl, Hp, Hc. simpl. now rewrite <- app_assoc.
Qed.

Lemma fold_add_entry_count (entries : list string) :
  forall s,
    0 <= songCount s ->
    songCount s + Z.of_nat (List.length entries) <= INT_MAX ->
    songCount (fold_left add_entry entries s) =
    songCount s + Z.of_nat (List.length entries).
Proof.
  induction entries as [| e entries IH]; intros s H0 Hmax.
  - simpl. lia.
  - cbn [fold_left]. cbn [List.length] in Hmax.
    assert (Hw : wrap_int (songCount s + 1) = songCount s + 1)
      by (apply wrap_int_id; unfold is_int, INT_MIN, INT_MAX in *; lia).
    rewrite IH; cbn [add_entry songCount]; rewrite Hw.
    + cbn [List.length]. lia.
    + lia.
    + lia.
Qed.

(** When the directory opens, the library is the directory listing in
    order, [songCount] is its length, and the selection made at start-up
    (track 0, paused) is inside the library exactly when the listing is not
    empty. *)
Theorem enumerate_builds_library (entries : list string) :
  Z.of_nat (List.length entries) <= INT_MAX ->
  let s := enumerate (Some entries) initial_shared in
  songList s = entries /\
  songCount s = Z.of_nat (List.length entries) /\
  playing s = false /\
  currentSong s = 0 /\
  (in_range s <-> entries <> []).
Proof.
  intros Hmax s. subst s. unfold enumerate.
  destruct (fold_add_entry entries initial_shared) as (Hl & Hp & Hc).
  assert (Hn : songCount (fold_left add_entry entries initial_shared) =
               Z.of_nat (List.length entries))
    by (rewrite fold_add_entry_count; simpl; lia).
  set (r := fold_left add_entry entries initial_shared) in *.
  simpl in Hl, Hp, Hc.
  split; [exact Hl |]. split; [exact Hn |].
  split; [exact Hp |]. split; [exact Hc |].
  unfold in_range. rewrite Hc, Hn. split.
  - intros H ->. simpl in H. lia.
  - intros H. destruct entries; [contradiction | simpl; lia].
Qed.

Lemma enumerate_builds_library_witness :
  enumerate (Some ["a.wav"; "b.wav"]%string) initial_shared =
  mkShared false 0 2 ["a.wav"; "b.wav"]%string.
Proof.
  destruct (enumerate_builds_library ["a.wav"; "b.wav"]%string)
    as (Hl & Hn & Hp & Hc & _).
  - unfold INT_MAX; simpl; lia.
  - destruct (enumerate _ _) as [pl cur cnt lst]. simpl in *.
    now subst.
Defined.

(** ** Play and pause *)

(** Two presses of play give back the state; one press changes nothing but
    the flag. *)
Theorem playSong_involution (s : Shared) :
  playSong (playSong s) = s /\
  playing (playSong s) = negb (playing s) /\
  playSong s = set_playing s (negb (playing s)) /\
  currentSong (playSong s) = currentSong s /\
  songCount (playSong s) = songCount s /\
  songList (playSong s) = songList s.
Proof.
  destruct s as [pl cur cnt lst]. unfold playSong, set_playing. simpl.
  rewrite negb_involutive. repeat split.
Qed.

(** ** Sequences of button presses *)

Lemma press_keeps_library (b : button) (s s' : Shared) :
  press b s = Ret s' ->
  songCount s' = songCount s /\ songList s' = songList s.
Proof.
  destruct b; simpl; unfold nextInt, prevInt, playInt, shuffleInt.
  - intros H; inversion H; subst. unfold nextSong.
    now destruct (_ =? _).
  - intros H; inversion H; subst. unfold prevSong.
    now destruct (_ =? _).
  - intros H; inversion H; subst. now unfold playSong.
  - unfold shuffleSong. destruct (entropy g); [| discriminate].
    destruct (_ || _); [discriminate |].
    intros H; inversion H; subst. now split.
Qed.

(** No sequence of button presses changes the library: [songCount] and
    [songList] are what enumeration left. *)
Theorem buttons_keep_library (bs : list button) :
  forall s s',
    press_all bs s = Ret s' ->
    songCount s' = songCount s /\ songList s' = songList s.
Proof.
  induction bs as [| b bs IH]; intros s s' H; simpl in H.
  - inversion H. now split.
  - destruct (press b s) as [s1 | |] eqn:E; try discriminate.
    destruct (press_keeps_library b s s1 E) as [Hc Hl].
    destruct (IH s1 s' H) as [Hc' Hl'].
    split; congruence.
Qed.

Lemma buttons_keep_library_witness :
  songCount (set_currentSong three_tracks 1) = songCount three_tracks /\
  songList (set_currentSong three_tracks 1) = songList three_tracks.
Proof.
  apply (buttons_keep_library
           [NextButton; ShuffleButton flat; PlayButton; PlayButton]).
  reflexivity.
Defined.

Lemma press_steady_in_range (b : button) (s : Shared) :
  is_int (songCount s) -> in_range s -> steady b ->
  exists s', press b s = Ret s' /\ in_range s'.
Proof.
  intros Hint Hr Hb. destruct b; simpl.
  - eexists; split; [reflexivity | now apply nextSong_in_range].
  - eexists; split; [reflexivity | now apply prevSong_in_range].
  - eexists; split; [reflexivity | exact Hr].
  - destruct Hb as (n & He & Hn).
    destruct (shuffleSong_nonneg_sample g s n He Hn) as [Hs Hr'];
      [unfold in_range in Hr; lia |].
    eexists; split; [exact Hs | exact Hr'].
Qed.

(** From a track inside the library, a sequence of presses whose shuffle
    samples are not negative runs to its end and leaves the track inside the
    library. *)
Theorem buttons_stay_in_range (bs : list button) :
  forall s,
    is_int (songCount s) -> in_range s -> Forall steady bs ->
    exists s', press_all bs s = Ret s' /\ in_range s'.
Proof.
  induction bs as [| b bs IH]; intros s Hint Hr Hbs; simpl.
  - now exists s.
  - inversion Hbs as [| ? ? Hb Hbs']; subst.
    destruct (press_steady_in_range b s Hint Hr Hb) as (s1 & E & Hr1).
    rewrite E.
    destruct (press_keeps_library b s s1 E) as [Hc _].
    apply IH; [now rewrite Hc | exact Hr1 | exact Hbs'].
Qed.

Lemma buttons_stay_in_range_witness :
  exists s',
    press_all [PrevButton; ShuffleButton flat; NextButton] three_tracks =
      Ret s' /\ in_range s'.
Proof.
  apply buttons_stay_in_range.
  - unfold is_int, INT_MIN, INT_MAX; simpl; lia.
  - unfold in_range; simpl; lia.
  - repeat constructor. exists 100000. split; [reflexivity | lia].
Defined.

(** ** Track indices outside the library *)

Lemma vector_at_outside (v : list string) (i : Z) (w : World) :
  i < 0 \/ Z.of_nat (List.length v) <= i -> vector_at v i w = Undefined.
Proof.
  intros H. unfold vector_at.
  destruct (Z.ltb_spec i 0) as [? | Hi]; [reflexivity |].
  destruct (nth_error v (Z.to_nat i)) eqn:E; [| reflexivity].
  assert (Z.to_nat i < List.length v)%nat
    by (apply nth_error_Some; congruence).
  lia.
Qed.

Lemma main_loop_index_outside (w : World) :
  currentSong (shared w) < 0 \/
  Z.of_nat (List.length (songList (shared w))) <= currentSong (shared w) ->
  main_loop_body w = Undefined.
Proof.
  intros H. unfold main_loop_body.
  run_by reflexivity.
  apply bind_Undefined. now apply vector_at_outside.
Qed.

(** With [currentSong] negative or not below the length of [songList], a
    turn of the playback loop is undefined (it indexes [songList] out of
    range), and so is a status push on a writable transport that has a
    change to report. *)
Theorem index_outside_library_undefined (w : World) :
  currentSong (shared w) < 0 \/
  Z.of_nat (List.length (songList (shared w))) <= currentSong (shared w) ->
  main_loop_body w = Undefined /\
  (forall p, writeable w = true -> p <> currentSong (shared w) ->
             status_push p w = Undefined).
Proof.
  intros H. split.
  - now apply main_loop_index_outside.
  - intros p Hw Hp. unfold status_push.
    run_by ltac:(unfold bt_writeable; rewrite Hw; reflexivity).
    run_by reflexivity.
    destruct (Z.eqb_spec p (currentSong (shared w))) as [? | _];
      [contradiction |]. cbn [negb].
    run_by ltac:(apply preamble_sent).
    apply bind_Undefined. apply vector_at_outside. exact H.
Qed.

Lemma index_outside_library_undefined_witness :
  main_loop_body
    (mkWorld (set_currentSong three_tracks (-1)) upside_down [] true [] []) =
  Undefined.
Proof.
  apply index_outside_library_undefined. left. simpl. lia.
Defined.

(** With no music directory, or an empty one, the library is empty: the
    start-up selection is outside it, [nextSong] moves it to 1 and
    [prevSong] to -1, [shuffleSong] divides by zero for every reading, and
    the playback loop indexes an empty vector. *)
Theorem empty_library_behaviour (dir : option (list string)) :
  dir = None \/ dir = Some [] ->
  let s := enumerate dir initial_shared in
  songCount s = 0 /\
  ~ in_range s /\
  currentSong (nextSong s) = 1 /\
  currentSong (prevSong s) = -1 /\
  (forall g, shuffleSong g s = Undefined) /\
  (forall w, shared w = s -> main_loop_body w = Undefined).
Proof.
  intros H s.
  assert (Hs : s = initial_shared) by (destruct H as [-> | ->]; reflexivity).
  rewrite Hs. split; [reflexivity |].
  split; [unfold in_range; simpl; lia |].
  split; [reflexivity |]. split; [reflexivity |]. split.
  - intros g. unfold shuffleSong. now destruct (entropy g).
  - intros w Hw. apply main_loop_index_outside.
    rewrite Hw. right. simpl. lia.
Qed.

Lemma empty_library_behaviour_witness :
  shuffleSong flat (enumerate None initial_shared) = Undefined /\
  currentSong (prevSong (enumerate None initial_shared)) = -1.
Proof.
  destruct (empty_library_behaviour None) as (_ & _ & _ & Hp & Hs & _).
  - left; reflexivity.
  - split; [apply Hs | exact Hp].
Defined.

(** ** More on the playback loop *)

Lemma main_loop_open_success_witness :
  main_loop_body
    (mkWorld (mkShared true 0 1 ["a.wav"%string]) flat [] false
       ["/sd/myMusic/a.wav"%string] []) =
  Ret (tt, mkWorld (mkShared false 0 1 ["a.wav"%string]) flat [] false
             ["/sd/myMusic/a.wav"%string]
             [Fopen "/sd/myMusic/a.wav" true; Wait 1000;
              Play (Some "/sd/myMusic/a.wav"%string);
              Fclose (Some "/sd/myMusic/a.wav"%string)]).
Proof.
  apply (main_loop_open_success
           (mkWorld (mkShared true 0 1 ["a.wav"%string]) flat [] false
              ["/sd/myMusic/a.wav"%string] []) "a.wav").
  - unfold current_name; simpl; split; [lia | reflexivity].
  - reflexivity.
Defined.

(** ** More on the status push *)

Lemma putc_loop_result (s : string) (n : nat) :
  forall (i : Z) (w w' : World),
    for_upto n i (fun i => c <- string_at s i ;; bt_putc c) w = Ret (tt, w') ->
    exists l, w' = add_events w (map BtPutc l).
Proof.
  induction n as [| n IH]; intros i w w' H.
  - simpl in H. inversion H. exists []. simpl. now rewrite add_events_nil.
  - cbn [for_upto] in H. unfold bind at 1 in H.
    destruct (bind (string_at s i) (fun c => bt_putc c) w)
      as [[u w1] | |] eqn:E; try discriminate.
    unfold bind in E.
    destruct (string_at s i w) as [[c w0] | |] eqn:Es; try discriminate.
    assert (w0 = w).
    { unfold string_at in Es.
      destruct (i <? 0); [discriminate |].
      destruct (String.get (Z.to_nat i) s).
      - now inversion Es.
      - destruct (i =? size s); [now inversion Es | discriminate]. }
    subst w0. unfold bt_putc, emit in E. inversion E; subst.
    destruct (IH _ _ _ H) as (l & ->).
    exists (c :: l). now rewrite add_events_app.
Qed.

Lemma status_push_shape (p p' : Z) (w w' : World) :
  status_push p w = Ret (p', w') ->
  (exists l, w' = add_events w (map BtPutc l)) /\
  (writeable w = false \/ p = currentSong (shared w) -> p' = p) /\
  (writeable w = true -> p' = currentSong (shared w)).
Proof.
  intros H.
  unfold status_push in H. unfold bind at 1 in H.
  unfold bt_writeable in H. destruct (writeable w) eqn:Hw.
  - unfold bind at 1 in H. unfold get_shared in H.
    destruct (Z.eqb_spec p (currentSong (shared w))) as [E | E];
      cbn [negb] in H.
    + inversion H; subst. split; [| split; auto].
      exists []. simpl. now rewrite add_events_nil.
    + unfold bind at 1 in H.
      destruct (for_upto 14 0 _ w) as [[u w1] | |] eqn:E1; try discriminate.
      destruct u. apply putc_loop_result in E1. destruct E1 as (l1 & ->).
      unfold bind at 1 in H.
      destruct (vector_at _ _ _) as [[name w2] | |] eqn:E2;
        try discriminate.
      assert (w2 = add_events w (map BtPutc l1)).
      { unfold vector_at in E2. destruct (_ <? 0); [discriminate |].
        destruct (nth_error _ _); [now inversion E2 | discriminate]. }
      subst w2. unfold bind at 1 in H.
      destruct (copy_name name _) as [[u w3] | |] eqn:E3; try discriminate.
      destruct u. apply putc_loop_result in E3. destruct E3 as (l3 & ->).
      unfold bind, bt_putc, emit, ret in H. inversion H; subst.
      split; [| split; [intros [? | ?]; [discriminate | contradiction] |
                        reflexivity]].
      exists (l1 ++ l3 ++ [newline]).
      rewrite !add_events_app, !map_app. reflexivity.
  - inversion H; subst. split; [| split; [auto | discriminate]].
    exists []. simpl. now rewrite add_events_nil.
Qed.

(** A push whose copy of the track is up to date whenever the transport is
    writable returns at once and sends nothing. *)
Lemma status_push_settled (p : Z) (w : World) :
  (writeable w = true -> p = currentSong (shared w)) ->
  status_push p w = Ret (p, w).
Proof.
  intros H. destruct (writeable w) eqn:Hw.
  - apply status_push_same; [exact Hw | now apply H].
  - now apply status_push_not_writeable.
Qed.

(** What a status push leaves behind when it returns: the shared state and
    the receive queue are untouched, only characters have been sent, and a
    second push right after it sends nothing (one message per change). *)
Theorem status_push_once_per_change (p p' : Z) (w w' : World) :
  status_push p w = Ret (p', w') ->
  shared w' = shared w /\
  rx w' = rx w /\
  (exists l, w' = add_events w (map BtPutc l)) /\
  (writeable w = true -> p' = currentSong (shared w)) /\
  status_push p' w' = Ret (p', w').
Proof.
  intros H.
  destruct (status_push_shape p p' w w' H) as ((l & ->) & Hkeep & Hnew).
  split; [reflexivity |]. split; [reflexivity |].
  split; [now exists l |]. split; [exact Hnew |].
  apply status_push_settled. exact Hnew.
Qed.

Lemma status_push_once_per_change_witness :
  let w := mkWorld (mkShared false 1 2 ["a.wav"; "tune.wav"]%string)
             flat [] true [] [] in
  let w' := add_events w (map BtPutc (status_message "tune.wav")) in
  status_push 1 w' = Ret (1, w').
Proof.
  intros w w'.
  apply (status_push_once_per_change 0 1 w w'). reflexivity.
Defined.

(** ** More on the command reader *)

Lemma read_commands_truncated (w : World) :
  (rx w = ["!"]%char -> read_commands w = Blocked) /\
  (rx w = ["!"; "B"]%char -> read_commands w = Blocked) /\
  (forall code, rx w = ["!"; "B"; code]%char -> read_commands w = Blocked).
Proof.
  split; [| split].
  - intros H. unfold read_commands.
    run_by ltac:(unfold bt_readable; rewrite H; reflexivity).
    run_by ltac:(unfold bt_getc; rewrite H; reflexivity).
    rewrite Ascii.eqb_refl. reflexivity.
  - intros H. unfold read_commands.
    run_by ltac:(unfold bt_readable; rewrite H; reflexivity).
    run_by ltac:(unfold bt_getc; rewrite H; reflexivity).
    rewrite Ascii.eqb_refl. run_by reflexivity.
    rewrite Ascii.eqb_refl. reflexivity.
  - intros code H. unfold read_commands.
    run_by ltac:(unfold bt_readable; rewrite H; reflexivity).
    run_by ltac:(unfold bt_getc; rewrite H; reflexivity).
    rewrite Ascii.eqb_refl. run_by reflexivity.
    rewrite Ascii.eqb_refl. run_by reflexivity. reflexivity.
Qed.

(** A turn whose status push returns and whose command reader waits is
    itself waiting. *)
Lemma body_blocked (p p' : Z) (w w1 : World) :
  status_push p w = Ret (p', w1) ->
  read_commands w1 = Blocked ->
  BluetoothThread_body p w = Blocked.
Proof.
  intros Hs Hr. unfold BluetoothThread_body.
  run_by ltac:(exact Hs).
  unfold bind. now rewrite Hr.
Qed.

(** A frame cut short after its '!', after "!B" or after "!B" and the code
    keeps the command reader waiting in [getc].  No turn of the thread
    returns on such a queue, whatever [previousSongBLE] is: when the status
    push of the turn returns, the turn waits in the reader. *)
Theorem truncated_frame_blocks (w : World) (cut : list ascii) :
  cut = ["!"]%char \/ cut = ["!"; "B"]%char \/
  (exists code, cut = ["!"; "B"; code]%char) ->
  rx w = cut ->
  read_commands w = Blocked /\
  (forall p r, BluetoothThread_body p w <> Ret r) /\
  (forall p p' w1,
     status_push p w = Ret (p', w1) -> BluetoothThread_body p w = Blocked).
Proof.
  intros Hcut Hrx.
  assert (Hb : forall w0, rx w0 = cut -> read_commands w0 = Blocked).
  { intros w0 H0. destruct (read_commands_truncated w0) as (H1 & H2 & H3).
    destruct Hcut as [-> | [-> | [code ->]]]; auto. now apply (H3 code). }
  assert (Hturn : forall p p' w1,
             status_push p w = Ret (p', w1) ->
             BluetoothThread_body p w = Blocked).
  { intros p p' w1 Hs. apply (body_blocked p p' w w1 Hs).
    apply Hb. destruct (status_push_shape p p' w w1 Hs) as ((l & ->) & _).
    exact Hrx. }
  split; [now apply Hb |]. split; [| exact Hturn].
  intros p r Hr.
  destruct (status_push p w) as [[p' w1] | |] eqn:Hs.
  - rewrite (Hturn p p' w1 Hs) in Hr. discriminate.
  - unfold BluetoothThread_body in Hr.
    rewrite (bind_Undefined _ _ _ Hs) in Hr. discriminate.
  - unfold BluetoothThread_body, bind in Hr. rewrite Hs in Hr. discriminate.
Qed.

Lemma truncated_frame_blocks_witness :
  let w := set_rx first_track_selected ["!"; "B"; "2"]%char in
  read_commands w = Blocked /\
  BluetoothThread_body 0 w = Blocked /\
  BluetoothThread_body 1 w = Blocked.
Proof.
  intros w.
  destruct (truncated_frame_blocks w ["!"; "B"; "2"]%char)
    as (Hread & _ & Hturn).
  - right. right. now exists "2"%char.
  - reflexivity.
  - split; [exact Hread |]. split.
    + apply (Hturn 0 0 w). reflexivity.
    + apply (Hturn 1 0
               (add_events w
                  (map BtPutc (status_message "a.wav")))).
      reflexivity.
Defined.

Lemma read_commands_empty (w : World) :
  rx w = [] -> read_commands w = Ret (tt, w).
Proof.
  intros H. unfold read_commands.
  run_by ltac:(unfold bt_readable; rewrite H; reflexivity).
  reflexivity.
Qed.

Lemma dispatch_result (code : ascii) (w w' : World) :
  dispatch code w = Ret (tt, w') ->
  trace w' = trace w /\ rx w' = rx w /\
  songCount (shared w') = songCount (shared w) /\
  songList (shared w') = songList (shared w).
Proof.
  unfold dispatch, modify_shared, do_shuffle, ret.
  destruct (code =? "1")%char.
  { intros H; inversion H; subst. simpl. repeat split. }
  destruct (code =? "2")%char.
  { intros H; inversion H; subst. simpl.
    unfold nextSong. destruct (_ =? _); repeat split. }
  destruct (code =? "3")%char.
  { intros H; inversion H; subst. simpl.
    unfold prevSong. destruct (_ =? _); repeat split. }
  destruct (code =? "4")%char.
  { destruct (shuffleSong (accel w) (shared w)) as [s' | |] eqn:E;
      try discriminate.
    intros H; inversion H; subst. simpl.
    destruct (press_keeps_library (ShuffleButton (accel w)) _ _ E).
    repeat split; assumption. }
  intros H; inversion H; subst. repeat split.
Qed.

(** Whenever the command reader returns it has made no peripheral call, has
    left the library as it was, and has taken at most four bytes from the
    front of the queue; with an empty queue it returns at once and changes
    nothing. *)
Theorem read_commands_footprint (w w' : World) :
  read_commands w = Ret (tt, w') ->
  trace w' = trace w /\
  songCount (shared w') = songCount (shared w) /\
  songList (shared w') = songList (shared w) /\
  (exists k, (k <= 4)%nat /\ rx w' = skipn k (rx w)) /\
  (rx w = [] -> w' = w).
Proof.
  intros H.
  destruct (rx w) as [| c0 q0] eqn:E0.
  { rewrite (read_commands_empty w E0) in H. inversion H; subst.
    do 3 (split; [reflexivity |]).
    split; [exists 0%nat; split; [lia | exact E0] | reflexivity]. }
  assert (Hlast : c0 :: q0 = [] -> w' = w) by discriminate.
  destruct (Ascii.eqb_spec c0 "!") as [-> | N0]; cycle 1.
  { rewrite (read_commands_not_bang w c0 q0 E0 N0) in H.
    inversion H; subst.
    do 3 (split; [reflexivity |]).
    split; [exists 1%nat; split; [lia | reflexivity] | exact Hlast]. }
  destruct q0 as [| c1 q1].
  { destruct (read_commands_truncated w) as (Hb & _).
    rewrite (Hb E0) in H. discriminate. }
  destruct (Ascii.eqb_spec c1 "B") as [-> | N1]; cycle 1.
  { rewrite (read_commands_not_B w c1 q1 E0 N1) in H.
    inversion H; subst.
    do 3 (split; [reflexivity |]).
    split; [exists 2%nat; split; [lia | reflexivity] | exact Hlast]. }
  destruct q1 as [| code q2].
  { destruct (read_commands_truncated w) as (_ & Hb & _).
    rewrite (Hb E0) in H. discriminate. }
  destruct q2 as [| edge rest].
  { destruct (read_commands_truncated w) as (_ & _ & Hb).
    rewrite (Hb code E0) in H. discriminate. }
  rewrite (read_commands_frame w code edge rest E0) in H.
  destruct (edge =? "0")%char.
  - apply dispatch_result in H. destruct H as (Ht & Hq & Hc & Hl).
    simpl in Ht, Hq, Hc, Hl.
    split; [exact Ht |]. split; [exact Hc |]. split; [exact Hl |].
    split; [exists 4%nat; split; [lia | exact Hq] | exact Hlast].
  - inversion H; subst.
    do 3 (split; [reflexivity |]).
    split; [exists 4%nat; split; [lia | reflexivity] | exact Hlast].
Qed.

Lemma read_commands_footprint_witness :
  trace (set_shared (set_rx first_track_selected [])
           (nextSong (shared first_track_selected))) =
  trace (set_rx first_track_selected (frame "2" "0")).
Proof.
  apply (read_commands_footprint
           (set_rx first_track_selected (frame "2" "0"))).
  reflexivity.
Defined.

Lemma body_steps (p p' : Z) (w w1 w2 : World) :
  status_push p w = Ret (p', w1) ->
  read_commands w1 = Ret (tt, w2) ->
  BluetoothThread_body p w = Ret (p', add_events w2 [Wait 50]).
Proof.
  intros Hs Hr. unfold BluetoothThread_body.
  run_by ltac:(exact Hs).
  run_by ltac:(exact Hr).
  reflexivity.
Qed.

(** There is no resynchronisation: a stray '!' in front of a valid frame
    makes the reader take the frame's own '!' for the second preamble byte,
    and the whole frame is then dropped byte by byte over the next turns.
    Whenever the status push of the first turn returns, four turns consume
    the five bytes with no operation run: the shared state is unchanged and
    the trace grows by the characters of that push and four waits. *)
Theorem stray_bang_swallows_frame
  (w w1 : World) (p p' : Z) (code edge : ascii) :
  rx w = "!"%char :: frame code edge ->
  code <> "!"%char -> edge <> "!"%char ->
  status_push p w = Ret (p', w1) ->
  BluetoothThread_turns 4 p w =
    Ret (p', add_events (set_rx w1 [])
               [Wait 50; Wait 50; Wait 50; Wait 50]) /\
  shared w1 = shared w /\
  exists l, w1 = add_events w (map BtPutc l).
Proof.
  intros H Hc He Hs. unfold frame in H.
  destruct (status_push_shape p p' w w1 Hs) as ((l & Hw1) & _ & Hnew).
  assert (Hrx : rx w1 = ["!"; "!"; "B"; code; edge]%char)
    by (rewrite Hw1; exact H).
  assert (Hset : forall w',
             writeable w' = writeable w -> shared w' = shared w ->
             status_push p' w' = Ret (p', w')).
  { intros w' Hwr Hsh. apply status_push_settled.
    rewrite Hwr, Hsh. exact Hnew. }
  split; [| split; [now rewrite Hw1 | now exists l]].
  cbn [BluetoothThread_turns].
  run_by ltac:(eapply body_steps;
               [exact Hs
               | apply (read_commands_not_B w1 "!" ["B"; code; edge]%char);
                 [exact Hrx | discriminate]]).
  run_by ltac:(eapply body_steps;
               [apply Hset; rewrite Hw1; reflexivity
               | apply read_commands_not_bang with (c0 := "B"%char);
                 [reflexivity | discriminate]]).
  run_by ltac:(eapply body_steps;
               [apply Hset; rewrite Hw1; reflexivity
               | apply read_commands_not_bang with (c0 := code);
                 [reflexivity | exact Hc]]).
  run_by ltac:(eapply body_steps;
               [apply Hset; rewrite Hw1; reflexivity
               | apply read_commands_not_bang with (c0 := edge);
                 [reflexivity | exact He]]).
  unfold ret, add_events, set_rx. cbn.
  now rewrite <- !app_assoc.
Qed.

Lemma stray_bang_swallows_frame_witness :
  let w := set_rx first_track_selected ("!"%char :: frame "2" "0") in
  let w1 := add_events w (map BtPutc (status_message "a.wav")) in
  BluetoothThread_turns 4 1 w =
    Ret (0, add_events (set_rx w1 [])
              [Wait 50; Wait 50; Wait 50; Wait 50]) /\
  shared w1 = shared w.
Proof.
  intros w w1.
  destruct (stray_bang_swallows_frame w w1 1 0 "2" "0")
    as (Hrun & Hshared & _).
  - reflexivity.
  - discriminate.
  - discriminate.
  - reflexivity.
  - split; [exact Hrun | exact Hshared].
Defined.

(** A "next" frame is announced on the following turn: with more than one
    track, a writable transport and nothing to report beforehand, the first
    turn runs [nextSong] and the second sends the status message of the new
    track. *)
Theorem remote_next_is_announced (w : World) (p : Z) (name : string) :
  rx w = frame "2" "0" ->
  writeable w = true ->
  p = currentSong (shared w) ->
  is_int (songCount (shared w)) ->
  in_range (shared w) ->
  1 < songCount (shared w) ->
  current_name (nextSong (shared w)) name ->
  4 <= size name < SIZE_MOD ->
  BluetoothThread_turns 2 p w =
  Ret (currentSong (nextSong (shared w)),
       add_events (set_shared (set_rx w []) (nextSong (shared w)))
         (Wait 50 :: map BtPutc (status_message name) ++ [Wait 50])).
Proof.
  intros Hrx Hw Hp Hint Hr Hmany Hname Hlen.
  assert (Hread : read_commands w =
                  Ret (tt, set_shared (set_rx w []) (nextSong (shared w)))).
  { rewrite (read_commands_frame w "2" "0" []) by (now rewrite Hrx).
    reflexivity. }
  assert (Hmoved : p <> currentSong (nextSong (shared w))).
  { rewrite (nextSong_value _ Hint Hr). subst p.
    unfold in_range in Hr.
    destruct (Z.eq_dec (currentSong (shared w)) (songCount (shared w) - 1))
      as [E | E].
    - rewrite E.
      replace (songCount (shared w) - 1 + 1) with (songCount (shared w))
        by lia.
      rewrite Z.mod_same by lia. lia.
    - rewrite Z.mod_small by lia. lia. }
  cbn [BluetoothThread_turns].
  run_by ltac:(apply body_idle; [exact Hp | exact Hread]).
  run_by ltac:(eapply body_steps;
               [apply status_push_changed with (name := name);
                [exact Hw | exact Hmoved | exact Hname | exact Hlen]
               | apply read_commands_empty; reflexivity]).
  unfold ret. rewrite !add_events_app.
  cbn [app]. reflexivity.
Qed.

Lemma remote_next_is_announced_witness :
  let w := set_rx first_track_selected (frame "2" "0") in
  bt_sent (trace (add_events
                    (set_shared (set_rx w []) (nextSong (shared w)))
                    (Wait 50 :: map BtPutc (status_message "tune.wav") ++
                     [Wait 50]))) =
  list_ascii_of_string "Current Song: tune" ++ [newline] /\
  BluetoothThread_turns 2 0 w =
  Ret (1, add_events (set_shared (set_rx w []) (nextSong (shared w)))
            (Wait 50 :: map BtPutc (status_message "tune.wav") ++ [Wait 50])).
Proof.
  intros w. split; [reflexivity |].
  apply (remote_next_is_announced w 0 "tune.wav");
    subst w; unfold first_track_selected.
  - reflexivity.
  - reflexivity.
  - reflexivity.
  - unfold is_int, INT_MIN, INT_MAX, set_rx; simpl; lia.
  - unfold in_range, set_rx; simpl; lia.
  - unfold set_rx; simpl; lia.
  - split; [vm_compute; discriminate | reflexivity].
  - unfold size, SIZE_MOD; simpl; lia.
Defined.

(** ** The display thread *)

Lemma repaint_song_result (ps : Z) (s : Shared) calls ps' :
  repaint_song ps s = Ret (calls, ps') -> ps' = currentSong s.
Proof.
  unfold repaint_song.
  destruct (Z.eqb_spec ps (currentSong s)) as [E | E].
  - intros H; inversion H; congruence.
  - destruct (lookup _ _); [| discriminate].
    intros H; now inversion H.
Qed.

Lemma repaint_song_same (s : Shared) :
  repaint_song (currentSong s) s = Ret ([], currentSong s).
Proof. unfold repaint_song. now rewrite Z.eqb_refl. Qed.

Lemma repaint_status_result (pp : bool) (s : Shared) :
  snd (repaint_status pp s) = playing s.
Proof.
  unfold repaint_status.
  destruct (Bool.eqb pp (playing s)) eqn:E; [| reflexivity].
  simpl. now apply eqb_prop.
Qed.

Lemma repaint_status_same (s : Shared) :
  repaint_status (playing s) s = ([], playing s).
Proof. unfold repaint_status. now rewrite eqb_reflx. Qed.

(** Whenever a turn of the display thread returns, its two local copies
    equal [playing] and [currentSong], and a following turn on the same
    shared state makes no display call: it only waits. *)
Theorem display_settles_after_one_turn
  (pp : bool) (ps : Z) (s : Shared) calls (pp' : bool) (ps' : Z) :
  LCDThread_body pp ps s = Ret (calls, (pp', ps')) ->
  pp' = playing s /\
  ps' = currentSong s /\
  LCDThread_body pp' ps' s = Ret ([Lcd_wait 50], (pp', ps')).
Proof.
  unfold LCDThread_body. intros H.
  destruct (repaint_song ps s) as [[sc song] | |] eqn:Es; try discriminate.
  apply repaint_song_result in Es. subst song.
  pose proof (repaint_status_result pp s) as Hp.
  destruct (repaint_status pp s) as [stc play]. simpl in Hp. subst play.
  inversion H; subst.
  split; [reflexivity |]. split; [reflexivity |].
  now rewrite repaint_song_same, repaint_status_same.
Qed.

Lemma display_settles_after_one_turn_witness :
  LCDThread_body true 2 (set_playing (set_currentSong three_tracks 2) true) =
  Ret ([Lcd_wait 50], (true, 2)).
Proof.
  apply (display_settles_after_one_turn false 0
           (set_playing (set_currentSong three_tracks 2) true)
           [Lcd_locate 0 12; Lcd_printf "NOW PLAYING:";
            Lcd_locate 0 13; Lcd_printf_s "%s   " "c";
            Lcd_locate 0 1; Lcd_printf "  "; Lcd_locate 0 3;
            Lcd_printf "->"; Lcd_locate 0 14; Lcd_printf "STATUS: PLAYING";
            Lcd_wait 50]).
  reflexivity.
Defined.

Lemma list_rows_none (n : nat) :
  forall i v, lookup v i = None -> (0 < n)%nat -> list_rows n i v = Undefined.
Proof.
  destruct n; intros i v H Hn; [lia |]. simpl. now rewrite H.
Qed.

Lemma list_rows_not_blocked (n : nat) :
  forall i v, list_rows n i v <> Blocked.
Proof.
  induction n as [| n IH]; intros i v; simpl; [discriminate |].
  destruct (lookup v i); [| discriminate].
  specialize (IH (wrap_int (i + 1)) v).
  destruct (list_rows n (wrap_int (i + 1)) v); congruence.
Qed.

(** With [currentSong] outside [songList] the set-up of the display thread
    indexes the vector out of range, and so does a turn that has a new track
    to paint; a turn whose track copy is up to date still works and
    paints at most the status line. *)
Theorem display_with_index_outside_library (s : Shared) :
  lookup (songList s) (currentSong s) = None ->
  LCDThread_setup s = Undefined /\
  (forall pp ps, ps <> currentSong s -> LCDThread_body pp ps s = Undefined) /\
  (forall pp,
     LCDThread_body pp (currentSong s) s =
     Ret (fst (repaint_status pp s) ++ [Lcd_wait 50],
          (playing s, currentSong s))).
Proof.
  intros H. split; [| split].
  - unfold LCDThread_setup. rewrite H.
    destruct (list_rows _ _ _) eqn:E; try reflexivity.
    now apply list_rows_not_blocked in E.
  - intros pp ps Hps. unfold LCDThread_body, repaint_song.
    destruct (Z.eqb_spec ps (currentSong s)); [contradiction |].
    now rewrite H.
  - intros pp. unfold LCDThread_body. rewrite repaint_song_same.
    pose proof (repaint_status_result pp s) as Hp.
    destruct (repaint_status pp s) as [stc play]. simpl in *. now subst.
Qed.

Lemma display_with_index_outside_library_witness :
  LCDThread_setup initial_shared = Undefined /\
  LCDThread_body false 0 (set_currentSong three_tracks (-1)) = Undefined.
Proof.
  split.
  - apply (display_with_index_outside_library initial_shared). reflexivity.
  - apply (display_with_index_outside_library
             (set_currentSong three_tracks (-1))).
    + reflexivity.
    + simpl. lia.
Defined.

Lemma lookup_app (pre rest : list string) (name : string) :
  lookup (pre ++ name :: rest) (Z.of_nat (List.length pre)) = Some name.
Proof.
  unfold lookup.
  destruct (Z.ltb_spec (Z.of_nat (List.length pre)) 0); [lia |].
  rewrite Nat2Z.id. rewrite nth_error_app2 by lia.
  now rewrite Nat.sub_diag.
Qed.

Lemma list_rows_listing (rest : list string) :
  forall pre,
    Z.of_nat (List.length (pre ++ rest)) <= INT_MAX ->
    list_rows (List.length rest) (Z.of_nat (List.length pre)) (pre ++ rest) =
    Ret (listing (Z.of_nat (List.length pre) + 1) rest).
Proof.
  induction rest as [| name rest IH]; intros pre Hmax.
  - reflexivity.
  - cbn [List.length list_rows]. rewrite lookup_app.
    rewrite length_app in Hmax. cbn [List.length] in Hmax.
    assert (Hw : wrap_int (Z.of_nat (List.length pre) + 1) =
                 Z.of_nat (List.length pre) + 1)
      by (apply wrap_int_id; unfold is_int, INT_MIN, INT_MAX in *; lia).
    rewrite Hw.
    assert (IH' : list_rows (List.length rest)
                    (Z.of_nat (List.length pre) + 1) (pre ++ name :: rest) =
                  Ret (listing (Z.of_nat (List.length pre) + 1 + 1) rest)).
    { specialize (IH (pre ++ [name])).
      rewrite <- app_assoc in IH. cbn [app] in IH.
      rewrite !length_app in IH. cbn [List.length] in IH.
      replace (Z.of_nat (List.length pre + 1)) with
        (Z.of_nat (List.length pre) + 1) in IH by lia.
      apply IH. lia. }
    rewrite IH'. reflexivity.
Qed.

(** When [songCount] is the length of the library and the selected track
    is in it, the set-up prints one row per track, in library order from
    line 1 and each with its display name, puts the arrow on line 1, names
    the selected track on line 13, and starts its copies at "paused" and
    track 0. *)
Theorem display_setup_lists_library (s : Shared) (name : string) :
  songCount s = Z.of_nat (List.length (songList s)) ->
  is_int (songCount s) ->
  lookup (songList s) (currentSong s) = Some name ->
  LCDThread_setup s =
  Ret ([Lcd_cls; Lcd_baudrate 3000000; Lcd_background_color BLACK;
        Lcd_color WHITE; Lcd_text_width 1; Lcd_text_height 1;
        Lcd_locate 0 0; Lcd_printf "Song List: ";
        Lcd_locate 0 1; Lcd_printf "->"] ++
       listing 1 (songList s) ++
       [Lcd_locate 0 12; Lcd_printf "NOW PLAYING:";
        Lcd_locate 0 13; Lcd_printf_s "%s" (display_name name);
        Lcd_locate 0 14; Lcd_printf "STATUS: PAUSED"],
       (false, 0)).
Proof.
  intros Hc Hint Hn. unfold LCDThread_setup.
  rewrite Hc, Nat2Z.id.
  pose proof (list_rows_listing (songList s) []) as Hrows.
  cbn [app List.length] in Hrows. change (Z.of_nat 0) with 0 in Hrows.
  rewrite Hrows by (unfold is_int in Hint; lia).
  now rewrite Hn.
Qed.

Lemma display_setup_lists_library_witness :
  exists calls,
    LCDThread_setup three_tracks = Ret (calls, (false, 0)) /\
    List.length calls = 22%nat.
Proof.
  eexists. split.
  - apply (display_setup_lists_library three_tracks "a.wav").
    + reflexivity.
    + unfold is_int, INT_MIN, INT_MAX; simpl; lia.
    + reflexivity.
  - reflexivity.
Defined.

(** ** Display names *)






(** ** The level meter thread *)

(** Whatever the DAC reads, a turn of the level meter while playing waits
    50 ms and either leaves the LEDs as they were or shows a thermometer
    pattern with LED 1 lit; while paused it touches no LED and does not
    wait at all. *)
Theorem level_meter_turn (dac : Single.float) (s : Shared) (l : Leds) :
  (playing s = true ->
     snd (AudioVisualizerThread_body dac s l) = [50] /\
     (fst (AudioVisualizerThread_body dac s l) = l \/
      thermometer (fst (AudioVisualizerThread_body dac s l)))) /\
  (playing s = false -> AudioVisualizerThread_body dac s l = (l, [])).
Proof.
  unfold AudioVisualizerThread_body. split; intros Hp; rewrite Hp.
  - split; [reflexivity |]. cbn [fst]. unfold set_tier.
    destruct (double_ltb _ _);
      [right; unfold thermometer; simpl; intuition discriminate |].
    destruct (_ && _);
      [right; unfold thermometer; simpl; intuition discriminate |].
    destruct (_ && _);
      [right; unfold thermometer; simpl; intuition discriminate |].
    destruct (double_ltb _ _);
      [right; unfold thermometer; simpl; intuition discriminate |].
    now left.
  - reflexivity.
Qed.

Lemma level_meter_turn_witness :
  AudioVisualizerThread_body (binary_normalize 24 128 1 0 false)
    (set_playing three_tracks true) (mkLeds false false false false) =
  (mkLeds true true true true, [50]) /\
  AudioVisualizerThread_body (binary_normalize 24 128 1 0 false)
    three_tracks (mkLeds true true false false) =
  (mkLeds true true false false, []).
Proof.
  split.
  - destruct (level_meter_turn (binary_normalize 24 128 1 0 false)
                (set_playing three_tracks true)
                (mkLeds false false false false)) as [[Hw _] _];
      [reflexivity |].
    reflexivity.
  - apply level_meter_turn. reflexivity.
Defined.

(** ** More on shuffle *)

(** In a non-empty library, for a reading whose sample [int(100000 *
    (x + y + z))] is defined, [shuffleSong] changes only [currentSong]; the
    new index is the truncating remainder of the sample, always smaller than
    [songCount] in magnitude, inside the library when the sample is not
    negative and never positive when the sample is negative. *)
Theorem shuffle_sample_bounds (g : gravity) (s : Shared) (n : Z) :
  entropy g = Some n ->
  0 < songCount s ->
  shuffleSong g s = Ret (set_currentSong s (Z.rem n (songCount s))) /\
  - songCount s < Z.rem n (songCount s) < songCount s /\
  (0 <= n -> in_range (set_currentSong s (Z.rem n (songCount s)))) /\
  (n < 0 -> Z.rem n (songCount s) <= 0).
Proof.
  intros He Hc.
  destruct (shuffleSong_magnitude g s n He Hc) as (Hrun & Hb & Hneg).
  split; [exact Hrun |]. split; [exact Hb |]. split; [| exact Hneg].
  intros Hn.
  destruct (shuffleSong_nonneg_sample g s n He Hn Hc) as [_ Hr].
  now rewrite Z.rem_mod_nonneg by lia.
Qed.

Lemma shuffle_sample_bounds_witness :
  shuffleSong flat three_tracks = Ret (set_currentSong three_tracks 1) /\
  in_range (set_currentSong three_tracks 1).
Proof.
  destruct (shuffle_sample_bounds flat three_tracks 100000)
    as (Hrun & _ & Hin & _).
  - reflexivity.
  - simpl; lia.
  - split; [exact Hrun | apply Hin; lia].
Defined.
